(** * googlemapscraper: the record store, the scroll loop and the email pass

    A shallow embedding of [starttogetdata.py] (class [GoogleMapsExtractor])
    and [email_scaper.py] (class [EmailScraper]), and the properties of the
    design specification settled against it.

    Conventions.
    - Python [str] values are modelled by [string]; the text handled here
      (CSV cells, e-mail addresses) is taken to be ASCII, on which
      [str.lower] and [str.strip] act bytewise.
    - A Python value that is either a [str] or [None] (pandas: [NaN]) is a
      [value := option string].
    - A [dict] with string keys is a [gmap string value]; a [set] is a [gset].
    - A CSV file is the list of its rows, each row the list of its cells;
      a file that does not exist is [None].
    - The browser driver and the HTTP client are opaque: what they answer is
      supplied by the environment (a [card], a [world], a [fetch] table). *)

From Stdlib Require Import ZArith Ascii String.
From stdpp Require Import gmap strings list.

Local Open Scope string_scope.
Local Open Scope Z_scope.
Local Open Scope nat_scope.

(** ** Python string operations used by the source *)

Module Py.

(** [c.lower()] on one ASCII character. *)
Definition lower_ascii (c : ascii) : ascii :=
  let n := nat_of_ascii c in
  if (65 <=? n) && (n <=? 90) then ascii_of_nat (n + 32) else c.

(** [s.lower()]. *)
Fixpoint lower (s : string) : string :=
  match s with
  | EmptyString => EmptyString
  | String c s' => String (lower_ascii c) (lower s')
  end.

(** [c.isspace()] on ASCII: tab, line feed, vertical tab, form feed,
    carriage return, the four separators 0x1c..0x1f, and the space. *)
Definition isspace (c : ascii) : bool :=
  let n := nat_of_ascii c in
  ((9 <=? n) && (n <=? 13)) || ((28 <=? n) && (n <=? 32)).

(** [s.lstrip()]. *)
Fixpoint lstrip (s : string) : string :=
  match s with
  | EmptyString => EmptyString
  | String c s' => if isspace c then lstrip s' else s
  end.

(** [s.rstrip()]: a character is kept when it is not a space or when
    something remains after it. *)
Fixpoint rstrip (s : string) : string :=
  match s with
  | EmptyString => EmptyString
  | String c s' =>
      match rstrip s' with
      | EmptyString => if isspace c then EmptyString else String c EmptyString
      | r => String c r
      end
  end.

(** [s.strip()]. *)
Definition strip (s : string) : string := rstrip (lstrip s).

(** [s.startswith(p)]. *)
Fixpoint startswith (p s : string) : bool :=
  match p, s with
  | EmptyString, _ => true
  | String a p', String b s' => if decide (a = b) then startswith p' s' else false
  | String _ _, EmptyString => false
  end.

(** [s.endswith(p)]. *)
Definition endswith (p s : string) : bool :=
  startswith (String.rev p) (String.rev s).

(** [c in s] for a single character [c]. *)
Fixpoint contains (c : ascii) (s : string) : bool :=
  match s with
  | EmptyString => false
  | String a s' => if decide (a = c) then true else contains c s'
  end.

(** [s.replace(c, '')] for a single character [c]. *)
Fixpoint remove_char (c : ascii) (s : string) : string :=
  match s with
  | EmptyString => EmptyString
  | String a s' => if decide (a = c) then remove_char c s' else String a (remove_char c s')
  end.

(** [s.split(sep)] for a non-empty separator: [skip] counts the characters
    of a separator occurrence still to be passed over, [cur] is the piece
    being collected. *)
Fixpoint split_go (sep : string) (skip : nat) (cur : string) (s : string) : list string :=
  match s with
  | EmptyString => [cur]
  | String c s' =>
      match skip with
      | S k => split_go sep k cur s'
      | O =>
          if startswith sep s
          then cur :: split_go sep (String.length sep - 1) EmptyString s'
          else split_go sep 0 (cur +:+ String c EmptyString) s'
      end
  end.

Definition split (sep : string) (s : string) : list string :=
  split_go sep 0 EmptyString s.

(** [sep.join(l)]. *)
Fixpoint join (sep : string) (l : list string) : string :=
  match l with
  | [] => EmptyString
  | [x] => x
  | x :: l' => x +:+ sep +:+ join sep l'
  end.

End Py.

(** ** Values, dictionaries, CSV files and exceptions *)

(** A Python value that is a [str] or [None]. *)
Abbreviation value := (option string) (only parsing).

(** The exceptions that the modelled code can meet. *)
Inductive exn :=
  | AttributeError
  | KeyError
  | ValueError
  | IndexError
  | NoSuchElementException
  | StaleElementReferenceException
  | WebDriverException
  | EmptyDataError
  | RequestError.

(** The outcome of a call that may raise. *)
Inductive result (A : Type) :=
  | Ret (a : A)
  | Raise (e : exn).
Arguments Ret {A} a.
Arguments Raise {A} e.

(** A CSV file as the [csv] module sees it: rows of cells ([[]] is a blank
    line). *)
Abbreviation csv := (list (list string)) (only parsing).

(** What [csv.writer] writes for a value: [None] becomes the empty cell. *)
Definition cell_of (v : value) : string := default EmptyString v.

(** The identity key [(name, address)] of a place. *)
Abbreviation place_key := (option string * option string)%type (only parsing).

(** [self.headers] of [setup_files]. *)
Definition headers : list string :=
  ["name"; "rating"; "reviews"; "address"; "phone"; "website";
   "latitude"; "longitude"; "extracted_time"].

(** ** [csv.DictReader] and [csv.DictWriter] (Python standard library) *)

(** [dict(zip(fieldnames, row))] followed by [d[key] = None] for the field
    names the row is too short for: later entries overwrite earlier ones.
    The entry under the [None] key that collects the surplus cells of a
    too long row is left out (no string key reads it). *)
Definition dict_of_row (fieldnames : list string) (row : list string) : gmap string value :=
  foldl (λ d kv, <[kv.1 := kv.2]> d) ∅
        (zip fieldnames ((Some <$> row) ++ replicate (length fieldnames - length row) None)).

(** The rows a [DictReader] yields: the first row of the file gives the
    field names, blank rows are skipped. *)
Definition dict_reader (f : csv) : list (gmap string value) :=
  match f with
  | [] => []
  | fieldnames :: rows =>
      dict_of_row fieldnames <$> filter (λ r, r ≠ []) rows
  end.

(** [DictWriter(f, fieldnames=headers).writerow(rowdict)]: a key outside
    the field names raises [ValueError]; a missing field is written as the
    empty cell. *)
Definition dict_to_list (rowdict : gmap string value) : result (list string) :=
  if decide (dom rowdict ⊆ list_to_set (C := gset string) headers)
  then Ret ((λ h, cell_of (default (Some EmptyString) (rowdict !! h))) <$> headers)
  else Raise ValueError.

(** ** The result cards of the feed, as the driver shows them *)

(** [card.find_element(...)]: the element's text, or one of the two
    exceptions that [extract_basic_info] handles. *)
Inductive lookup :=
  | Element (text : string)
  | NoSuchElement
  | Stale.

(** One result card: what the driver answers while the card is read and,
    after a click, while its detail pane is open. [pane_*] are the answers
    of [wait_for_element] ([None]: timed out); [pane_website] holds the
    [href] attribute, itself possibly [None]. The back button only changes
    the view and is not modelled. *)
Record card := Card {
  name_element : lookup;
  address_element : lookup;
  rating_element : lookup;
  reviews_element : lookup;
  click : result unit;
  pane_address : option string;
  pane_phone : option string;
  pane_website : option value;
  current_url : string;
  now : string
}.

(** ** The state of an extraction session *)

(** The attributes of a [GoogleMapsExtractor], the file [CSV_FILENAME], the
    local variables of [monitor_scrolling], and [dispatched], the log of the
    cards handed to [extract_place_details] (instrumentation only: nothing
    reads it). *)
Record state := State {
  csv_file : option csv;
  seen_places : gset place_key;
  total_extracted : nat;
  last_processed_index : nat;
  last_height : Z;
  retries : nat;
  no_new_results_count : nat;
  processed_count : nat;
  dispatched : list card
}.

Definition set_csv_file (x : option csv) (s : state) : state :=
  State x (seen_places s) (total_extracted s) (last_processed_index s)
        (last_height s) (retries s) (no_new_results_count s) (processed_count s) (dispatched s).
Definition set_seen_places (x : gset place_key) (s : state) : state :=
  State (csv_file s) x (total_extracted s) (last_processed_index s)
        (last_height s) (retries s) (no_new_results_count s) (processed_count s) (dispatched s).
Definition set_total_extracted (x : nat) (s : state) : state :=
  State (csv_file s) (seen_places s) x (last_processed_index s)
        (last_height s) (retries s) (no_new_results_count s) (processed_count s) (dispatched s).
Definition set_last_processed_index (x : nat) (s : state) : state :=
  State (csv_file s) (seen_places s) (total_extracted s) x
        (last_height s) (retries s) (no_new_results_count s) (processed_count s) (dispatched s).
Definition set_last_height (x : Z) (s : state) : state :=
  State (csv_file s) (seen_places s) (total_extracted s) (last_processed_index s)
        x (retries s) (no_new_results_count s) (processed_count s) (dispatched s).
Definition set_retries (x : nat) (s : state) : state :=
  State (csv_file s) (seen_places s) (total_extracted s) (last_processed_index s)
        (last_height s) x (no_new_results_count s) (processed_count s) (dispatched s).
Definition set_no_new_results_count (x : nat) (s : state) : state :=
  State (csv_file s) (seen_places s) (total_extracted s) (last_processed_index s)
        (last_height s) (retries s) x (processed_count s) (dispatched s).
Definition set_processed_count (x : nat) (s : state) : state :=
  State (csv_file s) (seen_places s) (total_extracted s) (last_processed_index s)
        (last_height s) (retries s) (no_new_results_count s) x (dispatched s).
Definition set_dispatched (x : list card) (s : state) : state :=
  State (csv_file s) (seen_places s) (total_extracted s) (last_processed_index s)
        (last_height s) (retries s) (no_new_results_count s) (processed_count s) x.

(** ** Statements that read and write the state and may raise *)

Definition M (A : Type) : Type := state → state * result A.

Definition ret {A} (a : A) : M A := λ s, (s, Ret a).
Definition raise {A} (e : exn) : M A := λ s, (s, Raise e).
Definition bind {A B} (m : M A) (k : A → M B) : M B :=
  λ s, match m s with
       | (s', Ret a) => k a s'
       | (s', Raise e) => (s', Raise e)
       end.
Definition gets {A} (f : state → A) : M A := λ s, (s, Ret (f s)).
Definition modify (f : state → state) : M unit := λ s, (f s, Ret tt).
(** A call into the driver: it answers or raises, the state is untouched. *)
Definition call {A} (r : result A) : M A := λ s, (s, r).

Notation "x <- m ;; k" := (bind m (λ x, k))
  (at level 100, m at next level, right associativity).
Notation "m ;;; k" := (bind m (λ _, k))
  (at level 100, right associativity).

(** [for x in l: body(x)]. *)
Fixpoint for_each {A} (l : list A) (body : A → M unit) : M unit :=
  match l with
  | [] => ret tt
  | x :: l' => body x ;;; for_each l' body
  end.

(** ** [GoogleMapsExtractor]: the record store *)

(** [d[key]]: raises [KeyError] when the key is missing. *)
Definition getitem (d : gmap string value) (key : string) : result value :=
  match d !! key with
  | Some v => Ret v
  | None => Raise KeyError
  end.

(** The loop of [setup_files] over the rows of the reader:
    [self.seen_places.add((row['name'], row['address']))]. The attribute
    [self.seen_places] is read first ([None]: the attribute is not set),
    then the two columns. *)
Fixpoint load_rows (rows : list (gmap string value)) (seen : option (gset place_key))
  : option (gset place_key) * result unit :=
  match rows with
  | [] => (seen, Ret tt)
  | row :: rest =>
      match seen with
      | None => (seen, Raise AttributeError)
      | Some places =>
          match getitem row "name" with
          | Raise e => (seen, Raise e)
          | Ret n =>
              match getitem row "address" with
              | Raise e => (seen, Raise e)
              | Ret a => load_rows rest (Some ({[ (n, a) ]} ∪ places))
              end
          end
      end
  end.

(** [setup_files], on the file [CSV_FILENAME] and the attribute
    [self.seen_places]: a missing file is created with the header row, an
    existing one is read through a [DictReader]. *)
Definition setup_files (f : option csv) (seen : option (gset place_key))
  : option csv * option (gset place_key) * result unit :=
  match f with
  | None => (Some [headers], seen, Ret tt)
  | Some rows =>
      let (seen', r) := load_rows (dict_reader rows) seen in
      (f, seen', r)
  end.

(** [GoogleMapsExtractor.__init__]: [setup_files] runs before
    [self.seen_places] is assigned, and the assignment that follows starts
    from the empty set. The local variables of [monitor_scrolling] are not
    yet alive; they are given their initial values. *)
Definition init (f : option csv) : result state :=
  match setup_files f None with
  | (f', _, Ret _) => Ret (State f' ∅ 0 0 0%Z 0 0 0 [])
  | (_, _, Raise e) => Raise e
  end.

(** [save_place]. Opening the file in append mode creates it when it is
    missing; [writerow] then appends one row. *)
Definition save_place (place_data : gmap string value) : M bool :=
  name <- call (getitem place_data "name") ;;
  address <- call (getitem place_data "address") ;;
  let place_key := (name, address) in
  seen <- gets seen_places ;;
  if decide (place_key ∈ seen) then ret false
  else
    modify (λ s, set_csv_file (Some (default [] (csv_file s))) s) ;;;
    row <- call (dict_to_list place_data) ;;
    modify (λ s, set_csv_file (Some (default [] (csv_file s) ++ [row])%list) s) ;;;
    modify (λ s, set_seen_places ({[ place_key ]} ∪ seen_places s) s) ;;;
    modify (λ s, set_total_extracted (total_extracted s + 1) s) ;;;
    ret true.

(** ** [GoogleMapsExtractor]: reading one card *)

(** [extract_basic_info]: [None] when the name cannot be read or an element
    has gone stale. *)
Definition extract_basic_info (c : card) : option (gmap string value) :=
  let details : gmap string value := list_to_map ((λ field, (field, Some "N/A")) <$> headers) in
  let details := <["extracted_time" := Some (now c)]> details in
  match name_element c with
  | Element name =>
      let details := <["name" := Some (Py.strip name)]> details in
      match address_element c with
      | Stale => None
      | found =>
          let details :=
            <["address" := Some (match found with Element a => Py.strip a | _ => "N/A" end)]> details in
          match rating_element c with
          | Stale => None
          | NoSuchElement => Some details
          | Element rating =>
              let details := <["rating" := Some (Py.strip rating)]> details in
              match reviews_element c with
              | Stale => None
              | NoSuchElement => Some details
              | Element reviews =>
                  Some (<["reviews" := Some (Py.remove_char ")" (Py.remove_char "(" reviews))]> details)
              end
          end
      end
  | _ => None
  end.

(** The coordinates part of [extract_detailed_info]:
    [coords = url.split('@')[1].split(',')[:2]], then the two assignments;
    an [IndexError] ends the block, keeping what was assigned before it. *)
Definition extract_coords (url : string) (details : gmap string value) : gmap string value :=
  match Py.split "@" url !! 1 with
  | None => details
  | Some rest =>
      let coords := take 2 (Py.split "," rest) in
      match coords !! 0 with
      | None => details
      | Some lat =>
          let details := <["latitude" := Some lat]> details in
          match coords !! 1 with
          | None => details
          | Some lng => <["longitude" := Some lng]> details
          end
      end
  end.

(** [extract_detailed_info]: the three fields of the detail pane, each one
    optional, then the coordinates. *)
Definition extract_detailed_info (c : card) (details : gmap string value) : gmap string value :=
  let details :=
    match pane_address c with
    | Some text => <["address" := Some (Py.strip text)]> details
    | None => details
    end in
  let details :=
    match pane_phone c with
    | Some text => <["phone" := Some (Py.strip text)]> details
    | None => details
    end in
  let details :=
    match pane_website c with
    | Some href => <["website" := href]> details
    | None => details
    end in
  extract_coords (current_url c) details.

(** [extract_place_details]: never raises. A card whose basic key is
    already seen is not opened. When the click raises, the basic details
    are returned. *)
Definition extract_place_details (c : card) : M (option (gmap string value)) :=
  match extract_basic_info c with
  | None => ret None
  | Some details =>
      match getitem details "name", getitem details "address" with
      | Ret name, Ret address =>
          seen <- gets seen_places ;;
          if decide ((name, address) ∈ seen) then ret None
          else
            match click c with
            | Ret _ => ret (Some (extract_detailed_info c details))
            | Raise _ => ret (Some details)
            end
      | _, _ => ret None
      end
  end.

(** ** [GoogleMapsExtractor.monitor_scrolling] *)

Definition MAX_RETRIES : nat := 3.
Definition SCROLL_INCREMENT : Z := 500.

(** What the driver answers during one iteration of the loop.
    [feed]: [wait_for_element] for the results panel ([Ret false]: timed
    out, the call returned [None]). [rendered]: the cards in the feed;
    [find_elements] returns them unless [find_elements_fault] is set.
    [scroll_height]: the height read after [SCROLL_PAUSE_TIME];
    [scroll_height_after_wait]: the one read after [WAIT_FOR_NEW_RESULTS]. *)
Record world := World {
  feed : result bool;
  rendered : list card;
  find_elements_fault : option exn;
  scroll_top : result Z;
  scroll_to : Z → result unit;
  scroll_height : result Z;
  scroll_height_after_wait : result Z
}.

Definition find_elements (w : world) : result (list card) :=
  match find_elements_fault w with
  | Some e => Raise e
  | None => Ret (rendered w)
  end.

(** The body of [for card in new_cards]. *)
Definition process_card (c : card) : M unit :=
  modify (λ s, set_dispatched (dispatched s ++ [c])%list s) ;;;
  place_data <- extract_place_details c ;;
  match place_data with
  | Some d =>
      saved <- save_place d ;;
      if saved then modify (λ s, set_processed_count (processed_count s + 1) s)
      else ret tt
  | None => ret tt
  end.

(** Lines 194-206: the scan over the cards beyond [last_processed_index]. *)
Definition scan_pass (cards : list card) : M unit :=
  index <- gets last_processed_index ;;
  let new_cards := drop index cards in
  match new_cards with
  | _ :: _ =>
      for_each new_cards process_card ;;;
      modify (set_last_processed_index (length cards)) ;;;
      modify (set_no_new_results_count 0)
  | [] =>
      modify (λ s, set_no_new_results_count (no_new_results_count s + 1) s)
  end.

(** Lines 221-242: the two height checks. *)
Definition height_check (w : world) : M unit :=
  new_height <- call (scroll_height w) ;;
  last <- gets last_height ;;
  if decide (new_height = last) then
    updated_height <- call (scroll_height_after_wait w) ;;
    if decide (updated_height = new_height) then
      modify (λ s, set_no_new_results_count (no_new_results_count s + 1) s)
    else
      modify (set_last_height updated_height) ;;;
      modify (set_retries 0)
  else
    modify (set_last_height new_height) ;;;
    modify (set_retries 0).

(** The body of the [try] block; the answer [true] stands for [break]. *)
Definition try_body (w : world) : M bool :=
  scrollable_div <- call (feed w) ;;
  if negb scrollable_div then ret true
  else
    cards <- call (find_elements w) ;;
    scan_pass cards ;;;
    current_height <- call (scroll_top w) ;;
    let target_height := (current_height + SCROLL_INCREMENT)%Z in
    call (scroll_to w target_height) ;;;
    height_check w ;;;
    ret false.

(** One iteration: the [try] block and its [except Exception] handler. *)
Definition iteration (w : world) (s : state) : state * bool :=
  match try_body w s with
  | (s', Ret stop) => (s', stop)
  | (s', Raise _) => (set_retries (retries s' + 1) s', false)
  end.

(** The condition of the [while] loop. *)
Definition loop_condition (s : state) : bool :=
  bool_decide (retries s < MAX_RETRIES) && bool_decide (no_new_results_count s < 3).

(** Where a run stands: [Done] when the loop has been left (the final
    tally is then logged), [Running] when it is still going after the
    iterations the environment was given for. *)
Inductive status := Done | Running.

(** The [while] loop, run against the answers of successive iterations. *)
Fixpoint loop (ws : list world) (s : state) : state * status :=
  if loop_condition s then
    match ws with
    | [] => (s, Running)
    | w :: ws' =>
        let (s', stop) := iteration w s in
        if stop then (s', Done) else loop ws' s'
    end
  else (s, Done).

(** [monitor_scrolling]: the local variables are initialised, then the loop
    runs. *)
Definition monitor_scrolling (ws : list world) (s : state) : state * status :=
  loop ws (set_last_height 0 (set_retries 0 (set_no_new_results_count 0 (set_processed_count 0 s)))).

(** ** pandas: data frames and their CSV form (third-party library) *)

(** A data frame: its column labels and its rows of cells, [None] being
    [NaN]. Cells are kept as text: the columns read by the modelled code
    ([website], [emails]) hold text, and the parsing of numeric columns is
    not modelled. *)
Record dataframe := DataFrame {
  columns : list string;
  data : list (list value)
}.

(** A row as [Series.to_dict()] gives it: the labels in column order. *)
Abbreviation row_dict := (list (string * option string)) (only parsing).

(** The texts that [read_csv] reads as [NaN] by default. *)
Definition na_values : list string :=
  [EmptyString; "#N/A"; "#N/A N/A"; "#NA"; "-1.#IND"; "-1.#QNAN"; "-NaN"; "-nan";
   "1.#IND"; "1.#QNAN"; "<NA>"; "N/A"; "NA"; "NULL"; "NaN"; "None";
   "n/a"; "nan"; "null"].

Definition read_cell (text : string) : value :=
  if decide (text ∈ na_values) then None else Some text.

(** [pd.read_csv(path)] with its defaults: blank lines are skipped, the
    first line left is the header, short rows are filled with [NaN]. A file
    with no header line raises [EmptyDataError]. Rows longer than the
    header are cut to its width (pandas would raise or take an implicit
    index; the modelled code writes no such file). *)
Definition read_csv (f : csv) : result dataframe :=
  match filter (λ r, r ≠ []) f with
  | [] => Raise EmptyDataError
  | header :: rows =>
      Ret (DataFrame header
             ((λ r, take (length header)
                      ((read_cell <$> r) ++ replicate (length header - length r) None)) <$> rows))
  end.

(** [df.iterrows()], each row as a dictionary. *)
Definition iterrows (df : dataframe) : list row_dict :=
  (λ r, zip (columns df) r) <$> data df.

(** [row[key]] on a row. *)
Fixpoint row_get (row : row_dict) (key : string) : result value :=
  match row with
  | [] => Raise KeyError
  | (k, v) :: rest => if decide (k = key) then Ret v else row_get rest key
  end.

(** [row[key] = v] on a dictionary: an existing key keeps its place, a new
    key goes last. *)
Fixpoint row_set (row : row_dict) (key : string) (v : value) : row_dict :=
  match row with
  | [] => [(key, v)]
  | (k, x) :: rest => if decide (k = key) then (k, v) :: rest else (k, x) :: row_set rest key v
  end.

(** The column labels of [pd.DataFrame(rows)]: the keys in order of first
    appearance. *)
Definition frame_columns (rows : list row_dict) : list string :=
  remove_dups (rows ≫= λ r, r.*1).

(** The cell of a row under a label, as [to_csv] writes it ([NaN] and a
    missing key: empty). *)
Definition row_cell (row : row_dict) (label : string) : string :=
  match row_get row label with
  | Ret v => cell_of v
  | Raise _ => EmptyString
  end.

(** [pd.DataFrame(rows).to_csv(path, index=False)]: the file is written
    anew, header first. *)
Definition to_csv (rows : list row_dict) : csv :=
  let labels := frame_columns rows in
  labels :: ((λ r, row_cell r <$> labels) <$> rows).

(** [pd.DataFrame([row]).to_csv(path, mode='a', header=False, index=False)]:
    one line of cells is added at the end of the file. *)
Definition to_csv_append (row : row_dict) (f : csv) : csv :=
  (f ++ [cell_of <$> row.*2])%list.

(** ** [EmailScraper] *)

(** [normalize_email]. *)
Definition normalize_email (email : string) : string :=
  Py.strip (Py.lower email).

(** [is_unique_email]: the answer and the new [self.seen_emails]. *)
Definition is_unique_email (email : string) (seen_emails : gset string) : bool * gset string :=
  let normalized := normalize_email email in
  if decide (normalized ∈ seen_emails) then (false, seen_emails)
  else (true, {[ normalized ]} ∪ seen_emails).

(** [process_emails]: the unique e-mails in their original spelling, and
    the new [self.seen_emails]. *)
Fixpoint process_emails (emails : list string) (seen_emails : gset string)
  : list string * gset string :=
  match emails with
  | [] => ([], seen_emails)
  | email :: rest =>
      let (unique, seen1) := is_unique_email email seen_emails in
      let (unique_emails, seen2) := process_emails rest seen1 in
      (if unique then email :: unique_emails else unique_emails, seen2)
  end.

(** The file extensions that disqualify a match. *)
Definition image_suffixes : list string := [".png"; ".jpg"; ".jpeg"; ".gif"].

(** The list comprehension [valid_emails] of [scrape_email_from_website];
    [email.split('@')[1]] raises [IndexError] on a match without [@]. *)
Fixpoint valid_emails (found_emails : list string) : result (list string) :=
  match found_emails with
  | [] => Ret []
  | email :: rest =>
      match Py.split "@" email !! 1 with
      | None => Raise IndexError
      | Some domain =>
          match valid_emails rest with
          | Raise e => Raise e
          | Ret valid =>
              if Py.contains "." domain
                 && negb (existsb (λ suffix, Py.endswith suffix (Py.lower email)) image_suffixes)
              then Ret (email :: valid) else Ret valid
          end
      end
  end.

(** The HTTP client and the regular-expression scan are opaque: for a
    website the environment gives [re.findall(email_pattern, response.text)],
    or the exception raised by the request. *)
Definition fetcher := string → result (list string).

(** [scrape_email_from_website]: any exception is logged and leaves the
    list of e-mails empty. *)
Definition scrape_email_from_website (fetch : fetcher) (website : string)
  (seen_emails : gset string) : list string * gset string :=
  match fetch website with
  | Raise _ => ([], seen_emails)
  | Ret found_emails =>
      match valid_emails found_emails with
      | Raise _ => ([], seen_emails)
      | Ret valid => process_emails valid seen_emails
      end
  end.

(** The state of an enrichment run: [self.seen_emails] and the output
    file. *)
Record scraper := Scraper {
  seen_emails : gset string;
  output_file : option csv
}.

(** [save_row_to_csv]. *)
Definition save_row_to_csv (row : row_dict) (f : option csv) : option csv :=
  match f with
  | None => Some (to_csv [row])
  | Some rows => Some (to_csv_append row rows)
  end.

(** Lines 69-77: the e-mails of an existing output file are added to
    [self.seen_emails]. *)
Definition preload_emails (f : option csv) (seen : gset string) : result (gset string) :=
  match f with
  | None => Ret seen
  | Some rows =>
      match read_csv rows with
      | Raise e => Raise e
      | Ret existing_df =>
          if decide ("emails" ∈ columns existing_df) then
            Ret (foldl (λ seen row,
                          match row_get row "emails" with
                          | Ret (Some email_list) =>
                              foldl (λ seen email, {[ normalize_email email ]} ∪ seen)
                                    seen (Py.split ", " email_list)
                          | _ => seen
                          end)
                       seen (iterrows existing_df))
          else Ret seen
      end
  end.

(** Lines 79-91: the loop over the rows of the input frame. [results] is
    the list of the same name; the answer is its final value. *)
Fixpoint enrich_rows (fetch : fetcher) (rows : list row_dict) (results : list row_dict)
  (s : scraper) : scraper * result (list row_dict) :=
  match rows with
  | [] => (s, Ret results)
  | row :: rest =>
      match row_get row "website" with
      | Raise e => (s, Raise e)
      | Ret None => enrich_rows fetch rest results s
      | Ret (Some website) =>
          let (emails, seen) := scrape_email_from_website fetch website (seen_emails s) in
          let new_row :=
            row_set row "emails"
              (Some (match emails with [] => "N/A" | _ => Py.join ", " emails end)) in
          enrich_rows fetch rest (results ++ [new_row])%list
            (Scraper seen (save_row_to_csv new_row (output_file s)))
      end
  end.

(** [process_websites]: the preload, the loop, and the final save, which
    writes [results] over the output file. *)
Definition process_websites (fetch : fetcher) (df : dataframe) (s : scraper)
  : scraper * result unit :=
  match preload_emails (output_file s) (seen_emails s) with
  | Raise e => (s, Raise e)
  | Ret seen =>
      match enrich_rows fetch (iterrows df) [] (Scraper seen (output_file s)) with
      | (s', Raise e) => (s', Raise e)
      | (s', Ret results) => (Scraper (seen_emails s') (Some (to_csv results)), Ret tt)
      end
  end.

(** [pd.notna(row['website'])], false also when the row has no such key
    (the lookup then raises before the test). *)
Definition has_website (row : row_dict) : bool :=
  match row_get row "website" with
  | Ret (Some _) => true
  | _ => false
  end.

(** [df[df['website'].notna()]]. *)
Definition with_websites (df : dataframe) : result dataframe :=
  if decide ("website" ∈ columns df) then
    Ret (DataFrame (columns df)
           (filter (λ r, has_website (zip (columns df) r) = true) (data df)))
  else Raise KeyError.

(** [main] of the e-mail pass, on the input file and the output file: the
    output file when it ends. Every exception is caught and printed. *)
Definition main (fetch : fetcher) (input_file : option csv) (output : option csv) : option csv :=
  match input_file with
  | None => output
  | Some rows =>
      match read_csv rows with
      | Raise _ => output
      | Ret df =>
          match with_websites df with
          | Raise _ => output
          | Ret df_with_websites =>
              output_file (process_websites fetch df_with_websites (Scraper ∅ output)).1
          end
      end
  end.

(** ** Vocabulary of the statements *)

(** The header names as a set. *)
Definition header_set : gset string := list_to_set headers.

(** The cursor and the variables of the loop that reading and saving a
    card leave alone. *)
Definition loop_vars (s : state) : nat * Z * nat * nat :=
  (last_processed_index s, last_height s, retries s, no_new_results_count s).

(** An iteration in which the feed is found and no driver call raises. *)
Definition fault_free (w : world) : Prop :=
  feed w = Ret true ∧ find_elements_fault w = None
  ∧ (∃ top, scroll_top w = Ret top ∧ scroll_to w (top + SCROLL_INCREMENT)%Z = Ret tt)
  ∧ (∃ h, scroll_height w = Ret h) ∧ (∃ h, scroll_height_after_wait w = Ret h).

(** A reading differs from the recorded height [h]: the first one, or,
    when the first one equals [h], the second one. *)
Definition height_changed (w : world) (h : Z) : bool :=
  match scroll_height w with
  | Ret new_height =>
      if decide (new_height = h) then
        match scroll_height_after_wait w with
        | Ret updated_height => bool_decide (updated_height ≠ h)
        | Raise _ => false
        end
      else true
  | Raise _ => false
  end.

(** The height that the check leaves recorded: the first reading when it
    differs from [h], else the second one. *)
Definition final_reading (w : world) (h : Z) : Z :=
  match scroll_height w with
  | Ret new_height =>
      if decide (new_height = h) then
        match scroll_height_after_wait w with
        | Ret updated_height => updated_height
        | Raise _ => h
        end
      else new_height
  | Raise _ => h
  end.

(** The stall counter as the specification words it (section 4.3), to be
    compared with the loop: [consecutiveStallCount] goes back to 0 when a
    reading differs from the recorded height and up by one on a confirmed
    stall. The list holds its value after each iteration. *)
Fixpoint spec_stall_counts (ws : list world) (h : Z) (count : nat) : list nat :=
  match ws with
  | [] => []
  | w :: ws' =>
      let count' := if height_changed w h then 0 else count + 1 in
      count' :: spec_stall_counts ws' (final_reading w h) count'
  end.

(** The feed only grows: the cards of an iteration are a prefix of the
    cards of every later one. *)
Definition append_only (ws : list world) : Prop :=
  ∀ i j wi wj, i ≤ j → ws !! i = Some wi → ws !! j = Some wj →
               rendered wi `prefix_of` rendered wj.


(** ** Sample inputs *)

(** A fresh session over a store that holds only the header row. *)
Definition fresh : state := State (Some [headers]) ∅ 0 0 0%Z 0 0 0 [].

(** A card with a name and an address, whose detail pane shows a phone
    number and a website. *)
Definition sample_card (name address : string) : card :=
  Card (Element name) (Element address) NoSuchElement NoSuchElement (Ret tt)
       None (Some "555-0100") (Some (Some "http://example.org"))
       "https://maps.example/place/@12.5,77.25,15z" "2024-01-01 10:00:00".

Definition cards8 : list card :=
  [sample_card "P0" "a0"; sample_card "P1" "a1"; sample_card "P2" "a2";
   sample_card "P3" "a3"; sample_card "P4" "a4"; sample_card "P5" "a5";
   sample_card "P6" "a6"; sample_card "P7" "a7"].

(** An iteration without faults: the feed shows [cs], the two height
    readings are [h1] and [h2]. *)
Definition quiet (cs : list card) (h1 h2 : Z) : world :=
  World (Ret true) cs None (Ret 0%Z) (λ _, Ret tt) (Ret h1) (Ret h2).

(** An iteration in which reading the scroll position raises. *)
Definition faulty (cs : list card) : world :=
  World (Ret true) cs None (Raise WebDriverException) (λ _, Ret tt) (Ret 0%Z) (Ret 0%Z).

(** A record as [extract_place_details] builds it. *)
Definition sample_place : gmap string value :=
  list_to_map
    [("name", Some "Cafe Luna"); ("rating", Some "4.5"); ("reviews", Some "120");
     ("address", Some "1 Main St"); ("phone", Some "555-0100");
     ("website", Some "http://luna.example"); ("latitude", Some "12.5");
     ("longitude", Some "77.25"); ("extracted_time", Some "2024-01-01 10:00:00")].

(** An output row augments an input row: it agrees with it on every label
    but [emails], and holds a text under [emails]. *)
Definition augments (out inp : row_dict) : Prop :=
  (∀ label, label ≠ "emails" → row_get out label = row_get inp label)
  ∧ ∃ emails, row_get out "emails" = Ret (Some emails).

(** Every row of the frame has one cell per column. *)
Definition rectangular (df : dataframe) : Prop :=
  Forall (λ r, length r = length (columns df)) (data df).

(** The output of an earlier run, an input frame with one record without a
    website, and the answers of the websites. *)
Definition prior_output : csv :=
  [["name"; "website"; "emails"];
   ["Old Cafe"; "http://old.example"; "old@old.example"]].

Definition sample_frame : dataframe :=
  DataFrame ["name"; "website"]
    [[Some "Bar Sol"; Some "http://sol.example"];
     [Some "No Site"; None];
     [Some "Old Cafe"; Some "http://old.example"]].

Definition sample_fetch : fetcher :=
  λ website,
    if decide (website = "http://sol.example")
    then Ret ["Hi@Sol.example"; "hi@sol.example"; "logo@2x.png"]
    else if decide (website = "http://old.example") then Ret ["old@old.example"]
    else Raise RequestError.

(** ** Vocabulary of the further properties *)

(** The identity key that a stored row carries: its cells in the columns
    [name] (the first) and [address] (the fourth) of [headers]. *)
Definition stored_key (row : list string) : place_key :=
  (row !! 0, row !! 3).

(** The store of [s'] extends the store of [s] by the rows [new]: the rows
    come after those of the file, have one cell per header, carry pairwise
    different keys that were not seen in [s], their keys are what
    [seen_places] gained, and the two counts went up by their number. *)
Definition store_extends (s s' : state) (new : list (list string)) : Prop :=
  default [] (csv_file s') = (default [] (csv_file s) ++ new)%list
  ∧ Forall (λ r, length r = length headers) new
  ∧ NoDup (stored_key <$> new)
  ∧ (∀ r, r ∈ new → stored_key r ∉ seen_places s)
  ∧ seen_places s' = seen_places s ∪ list_to_set (stored_key <$> new)
  ∧ total_extracted s' = total_extracted s + length new
  ∧ processed_count s' = processed_count s + length new.

(** The row that [writerow] writes for a record. *)
Definition row_of (d : gmap string value) : list string :=
  (λ h, cell_of (default (Some EmptyString) (d !! h))) <$> headers.

(** The fields that [extract_detailed_info] may assign. *)
Definition detail_fields : list string :=
  ["address"; "phone"; "website"; "latitude"; "longitude"].

(** ** Vocabulary of the revised statements *)

(** The scan pass of an iteration is reached: the results panel is found
    and the cards are listed. *)
Definition scan_reached (w : world) : bool :=
  match feed w, find_elements_fault w with
  | Ret true, None => true
  | _, _ => false
  end.

(** The stall is confirmed at line 236: the two scroll calls return and
    both readings equal the recorded height [h]. *)
Definition stall_confirmed (w : world) (h : Z) : bool :=
  match scroll_top w with
  | Ret top =>
      match scroll_to w (top + SCROLL_INCREMENT)%Z, scroll_height w with
      | Ret _, Ret new_height =>
          if decide (new_height = h) then
            match scroll_height_after_wait w with
            | Ret updated_height => bool_decide (updated_height = new_height)
            | Raise _ => false
            end
          else false
      | _, _ => false
      end
  | Raise _ => false
  end.

(** An iteration in which the results panel is not found. *)
Definition no_feed : world :=
  World (Ret false) cards8 None (Ret 0%Z) (λ _, Ret tt) (Ret 0%Z) (Ret 0%Z).

(** The normal form as the specification words it: trimmed, then
    lower-cased. *)
Definition trimmed_lower (email : string) : string := Py.lower (Py.strip email).



(** * Properties *)

(** ** The string operations on sample texts *)

Example lower_mixed : Py.lower "A@Foo.COM" = "a@foo.com".
Proof. reflexivity. Qed.

Example strip_both : Py.strip "  a b	 " = "a b".
Proof. reflexivity. Qed.

Example split_at : Py.split "@" "https://maps/x/@12.5,77.1,15z" = ["https://maps/x/"; "12.5,77.1,15z"].
Proof. reflexivity. Qed.

Example split_comma_space : Py.split ", " "a@b.c, d@e.f" = ["a@b.c"; "d@e.f"].
Proof. reflexivity. Qed.

Example split_trailing : Py.split "," "a,,b," = ["a"; EmptyString; "b"; EmptyString].
Proof. reflexivity. Qed.

Example endswith_png : Py.endswith ".png" "logo@2x.png" = true.
Proof. reflexivity. Qed.

(** ** The record store: [save_place] *)

Section SavePlace.
Context (place_data : gmap string value) (name address : value).
Hypothesis Hname : place_data !! "name" = Some name.
Hypothesis Haddress : place_data !! "address" = Some address.

Lemma save_place_seen (s : state) :
  (name, address) ∈ seen_places s →
  save_place place_data s = (s, Ret false).
Proof using Hname Haddress.
  intros Hin. unfold save_place, bind, call, gets, getitem.
  rewrite Hname, Haddress. simpl.
  destruct (decide _) as [_|Hn]; [reflexivity | contradiction].
Qed.

Lemma save_place_fresh (s : state) (row : list string) :
  dict_to_list place_data = Ret row →
  (name, address) ∉ seen_places s →
  save_place place_data s =
    (State (Some (default [] (csv_file s) ++ [row])%list)
           ({[ (name, address) ]} ∪ seen_places s)
           (total_extracted s + 1) (last_processed_index s) (last_height s)
           (retries s) (no_new_results_count s) (processed_count s) (dispatched s),
     Ret true).
Proof using Hname Haddress.
  intros Hrow Hnin. unfold save_place, bind, call, gets, getitem, modify.
  rewrite Hname, Haddress. simpl.
  destruct (decide _) as [Hin|_]; [contradiction|].
  rewrite Hrow. reflexivity.
Qed.
End SavePlace.

Lemma dict_to_list_headers (d : gmap string value) :
  dom d ⊆ list_to_set (C := gset string) headers →
  dict_to_list d = Ret ((λ h, cell_of (default (Some EmptyString) (d !! h))) <$> headers).
Proof.
  intros H. unfold dict_to_list. destruct (decide _); [reflexivity | contradiction].
Qed.

(** ** Reading a card never fails and yields a well-formed record *)

Lemma header_set_insert (k : string) (v : value) (d : gmap string value) :
  k ∈ headers → dom d = header_set → dom (<[k := v]> d) = header_set.
Proof.
  intros Hk Hd. rewrite dom_insert_L, Hd.
  assert (Hin : k ∈ header_set) by (unfold header_set; apply elem_of_list_to_set; exact Hk).
  apply set_eq. intros x. rewrite elem_of_union, elem_of_singleton.
  split; [intros [->|Hx]; assumption | intros Hx; right; exact Hx].
Qed.

Ltac header_key :=
  unfold headers; repeat (first [ apply list_elem_of_here | apply list_elem_of_further ]).

Ltac dom_inserts :=
  repeat lazymatch goal with
         | |- dom (insert _ _ _) = _ => apply header_set_insert; [header_key|]
         end.

Lemma extract_basic_info_dom (c : card) (d : gmap string value) :
  extract_basic_info c = Some d → dom d = header_set.
Proof.
  unfold extract_basic_info.
  assert (H0 : dom (list_to_map (M := gmap string value)
                      ((λ field, (field, Some "N/A")) <$> headers)) = header_set).
  { rewrite dom_list_to_map_L. reflexivity. }
  revert H0. generalize (list_to_map (M := gmap string value)
                           ((λ field, (field, Some "N/A")) <$> headers)).
  intros base H0.
  destruct (name_element c); [|discriminate|discriminate].
  destruct (address_element c); [| |discriminate];
    (destruct (rating_element c); [| |discriminate];
     [destruct (reviews_element c); [| |discriminate] |]);
    intros [= <-];
    dom_inserts; exact H0.
Qed.

Lemma extract_coords_dom (url : string) (d : gmap string value) :
  dom d = header_set → dom (extract_coords url d) = header_set.
Proof.
  intros Hd. unfold extract_coords.
  destruct (Py.split "@" url !! 1); [|exact Hd].
  destruct (take 2 (Py.split "," s) !! 0); [|exact Hd].
  destruct (take 2 (Py.split "," s) !! 1);
    dom_inserts; exact Hd.
Qed.

Lemma extract_detailed_info_dom (c : card) (d : gmap string value) :
  dom d = header_set → dom (extract_detailed_info c d) = header_set.
Proof.
  intros Hd. unfold extract_detailed_info.
  apply extract_coords_dom.
  destruct (pane_address c), (pane_phone c), (pane_website c);
    dom_inserts; exact Hd.
Qed.

Lemma extract_place_details_total (c : card) (s : state) :
  ∃ r, extract_place_details c s = (s, Ret r)
       ∧ ∀ d, r = Some d → dom d = header_set.
Proof.
  unfold extract_place_details.
  destruct (extract_basic_info c) as [d|] eqn:Hb.
  2:{ exists None. split; [reflexivity | discriminate]. }
  apply extract_basic_info_dom in Hb.
  destruct (getitem d "name"), (getitem d "address");
    try (exists None; split; [reflexivity | discriminate]).
  unfold bind, gets. destruct (decide _).
  { exists None. split; [reflexivity | discriminate]. }
  destruct (click c).
  - eexists. split; [reflexivity|]. intros ? [= <-]. by apply extract_detailed_info_dom.
  - eexists. split; [reflexivity|]. intros ? [= <-]. exact Hb.
Qed.

Lemma save_place_total (d : gmap string value) (s : state) :
  dom d = header_set →
  ∃ s' b, save_place d s = (s', Ret b)
          ∧ loop_vars s' = loop_vars s
          ∧ processed_count s' = processed_count s
          ∧ dispatched s' = dispatched s.
Proof.
  intros Hd.
  assert (Hn : is_Some (d !! "name")).
  { apply elem_of_dom. rewrite Hd. unfold header_set. apply elem_of_list_to_set. header_key. }
  assert (Ha : is_Some (d !! "address")).
  { apply elem_of_dom. rewrite Hd. unfold header_set. apply elem_of_list_to_set. header_key. }
  destruct Hn as [n Hn], Ha as [a Ha].
  destruct (decide ((n, a) ∈ seen_places s)) as [Hin|Hnin].
  - exists s, false. rewrite (save_place_seen d n a Hn Ha s Hin). auto.
  - eexists _, true.
    rewrite (save_place_fresh d n a Hn Ha s _
               (dict_to_list_headers d ltac:(rewrite Hd; reflexivity)) Hnin).
    auto.
Qed.

Lemma process_card_total (c : card) (s : state) :
  ∃ s', process_card c s = (s', Ret tt)
        ∧ loop_vars s' = loop_vars s
        ∧ dispatched s' = (dispatched s ++ [c])%list.
Proof.
  unfold process_card, bind, modify.
  destruct (extract_place_details_total c (set_dispatched (dispatched s ++ [c])%list s))
    as (r & -> & Hdom).
  destruct r as [d|]; [|eexists; split; [reflexivity|]; auto].
  destruct (save_place_total d (set_dispatched (dispatched s ++ [c])%list s) (Hdom d eq_refl))
    as (s1 & b & -> & Hv & _ & Hdisp).
  destruct b; eexists; (split; [reflexivity|]); simpl; auto.
Qed.

Lemma for_each_process_card (cs : list card) (s : state) :
  ∃ s', for_each cs process_card s = (s', Ret tt)
        ∧ loop_vars s' = loop_vars s
        ∧ dispatched s' = (dispatched s ++ cs)%list.
Proof.
  revert s. induction cs as [|c cs IH]; intros s; simpl.
  - exists s. rewrite app_nil_r. auto.
  - unfold bind. destruct (process_card_total c s) as (s1 & -> & Hv & Hd).
    destruct (IH s1) as (s2 & -> & Hv2 & Hd2).
    exists s2. split; [reflexivity|]. split; [congruence|].
    rewrite Hd2, Hd, <- app_assoc. reflexivity.
Qed.

(** The scan pass in closed form. *)
Lemma scan_pass_total (cards : list card) (s : state) :
  ∃ s', scan_pass cards s = (s', Ret tt)
        ∧ dispatched s' = (dispatched s ++ drop (last_processed_index s) cards)%list
        ∧ last_processed_index s' =
            (if decide (last_processed_index s < length cards) then length cards
             else last_processed_index s)
        ∧ no_new_results_count s' =
            (if decide (last_processed_index s < length cards) then 0
             else no_new_results_count s + 1)
        ∧ last_height s' = last_height s
        ∧ retries s' = retries s.
Proof.
  unfold scan_pass, bind, gets.
  destruct (drop (last_processed_index s) cards) as [|c cs] eqn:Hdrop.
  - apply drop_nil_inv in Hdrop. (* length cards ≤ index *)
    destruct (decide _) as [Hlt|_]; [lia|].
    eexists. split; [reflexivity|]. simpl. rewrite app_nil_r. auto.
  - assert (Hlt : last_processed_index s < length cards).
    { destruct (decide (last_processed_index s < length cards)) as [|Hge]; [assumption|].
      rewrite drop_ge in Hdrop by lia. discriminate. }
    destruct (decide _) as [_|]; [|lia].
    destruct (for_each_process_card (c :: cs) s) as (s1 & -> & Hv & Hd).
    eexists. split; [reflexivity|]. unfold modify. simpl.
    unfold loop_vars in Hv. injection Hv as _ Hh Hr _.
    auto.
Qed.

(** ** One iteration of the loop *)

Lemma height_check_unfold (w : world) (s : state) :
  height_check w s =
    match scroll_height w with
    | Raise e => (s, Raise e)
    | Ret new_height =>
        if decide (new_height = last_height s) then
          match scroll_height_after_wait w with
          | Raise e => (s, Raise e)
          | Ret updated_height =>
              if decide (updated_height = new_height)
              then (set_no_new_results_count (no_new_results_count s + 1) s, Ret tt)
              else (set_retries 0 (set_last_height updated_height s), Ret tt)
          end
        else (set_retries 0 (set_last_height new_height s), Ret tt)
    end.
Proof.
  unfold height_check, bind, call, gets, modify.
  destruct (scroll_height w) as [nh|]; [|reflexivity]. simpl.
  destruct (decide (nh = last_height s)); [|reflexivity].
  destruct (scroll_height_after_wait w) as [uh|]; [|reflexivity].
  destruct (decide (uh = nh)); reflexivity.
Qed.

(** The [try] block in closed form: the scan pass, then the height check,
    each reached only when the calls before it returned. *)
Lemma try_body_unfold (w : world) (s : state) :
  try_body w s =
    match feed w with
    | Raise e => (s, Raise e)
    | Ret false => (s, Ret true)
    | Ret true =>
        match find_elements_fault w with
        | Some e => (s, Raise e)
        | None =>
            let s1 := (scan_pass (rendered w) s).1 in
            match scroll_top w with
            | Raise e => (s1, Raise e)
            | Ret top =>
                match scroll_to w (top + SCROLL_INCREMENT)%Z with
                | Raise e => (s1, Raise e)
                | Ret _ =>
                    match height_check w s1 with
                    | (s2, Ret _) => (s2, Ret false)
                    | (s2, Raise e) => (s2, Raise e)
                    end
                end
            end
        end
    end.
Proof.
  unfold try_body, bind, call, find_elements.
  destruct (feed w) as [[|]|]; try reflexivity. simpl.
  destruct (find_elements_fault w); [reflexivity|].
  destruct (scan_pass_total (rendered w) s) as (s1 & Hs & _). rewrite Hs. simpl.
  destruct (scroll_top w); [|reflexivity].
  destruct (scroll_to w _); [|reflexivity].
  destruct (height_check w s1) as [s2 [ [] | e ]]; reflexivity.
Qed.

Lemma height_check_frame (w : world) (s : state) :
  last_processed_index (height_check w s).1 = last_processed_index s
  ∧ dispatched (height_check w s).1 = dispatched s
  ∧ processed_count (height_check w s).1 = processed_count s.
Proof.
  rewrite height_check_unfold.
  destruct (scroll_height w) as [nh|]; [|auto].
  destruct (decide _); [|auto].
  destruct (scroll_height_after_wait w) as [uh|]; [|auto].
  destruct (decide _); auto.
Qed.

(** What the height check does to the two counters and the recorded
    height. *)
Lemma height_check_counters (w : world) (s : state) :
  let s' := (height_check w s).1 in
  match (height_check w s).2 with
  | Raise _ => s' = s
  | Ret _ =>
      last_height s' = final_reading w (last_height s)
      ∧ if height_changed w (last_height s)
        then retries s' = 0 ∧ no_new_results_count s' = no_new_results_count s
        else retries s' = retries s
             ∧ no_new_results_count s' = no_new_results_count s + 1
  end.
Proof.
  rewrite height_check_unfold. unfold height_changed, final_reading.
  destruct (scroll_height w) as [nh|]; [|reflexivity].
  destruct (decide (nh = last_height s)) as [->|Hne]; simpl; [|auto].
  destruct (scroll_height_after_wait w) as [uh|]; [|reflexivity].
  destruct (decide (uh = last_height s)) as [->|Hne]; simpl.
  - rewrite bool_decide_eq_false_2 by auto. auto.
  - rewrite bool_decide_eq_true_2 by auto. auto.
Qed.

(** The cursor after an iteration: unchanged, or moved up to the number of
    cards rendered. *)
Lemma iteration_cursor (w : world) (s : state) :
  last_processed_index (iteration w s).1 = last_processed_index s
  ∨ (last_processed_index s < length (rendered w)
     ∧ last_processed_index (iteration w s).1 = length (rendered w)).
Proof.
  unfold iteration. rewrite try_body_unfold.
  destruct (feed w) as [[|]|]; simpl; auto.
  destruct (find_elements_fault w); simpl; auto.
  destruct (scan_pass_total (rendered w) s) as (s1 & Hs & _ & Hi & _).
  rewrite Hs. simpl.
  assert (Hc : last_processed_index s1 = last_processed_index s
               ∨ (last_processed_index s < length (rendered w)
                  ∧ last_processed_index s1 = length (rendered w))).
  { rewrite Hi. destruct (decide _); auto. }
  destruct (scroll_top w); simpl; auto.
  destruct (scroll_to w _); simpl; auto.
  pose proof (height_check_frame w s1) as (Hf & _).
  destruct (height_check w s1) as [s2 [ [] | e ]]; simpl in *; rewrite Hf; exact Hc.
Qed.

(** A fault-free iteration: the scan pass, then the height check, and no
    [break]. *)
Lemma iteration_fault_free (w : world) (s : state) :
  fault_free w →
  ∃ s1 s2, scan_pass (rendered w) s = (s1, Ret tt)
           ∧ height_check w s1 = (s2, Ret tt)
           ∧ try_body w s = (s2, Ret false)
           ∧ iteration w s = (s2, false).
Proof.
  intros (Hfeed & Hfind & (top & Htop & Hto) & (h1 & Hh1) & (h2 & Hh2)).
  destruct (scan_pass_total (rendered w) s) as (s1 & Hs & _).
  assert (Hhc : ∃ s2, height_check w s1 = (s2, Ret tt)).
  { rewrite height_check_unfold, Hh1, Hh2.
    destruct (decide _); [destruct (decide _)|]; eauto. }
  destruct Hhc as (s2 & Hhc). exists s1, s2.
  assert (Ht : try_body w s = (s2, Ret false)).
  { rewrite try_body_unfold, Hfeed, Hfind, Hs, Htop, Hto. simpl. rewrite Hhc. reflexivity. }
  unfold iteration. rewrite Ht. auto.
Qed.

Lemma loop_app (ws1 ws2 : list world) (s : state) :
  loop (ws1 ++ ws2) s =
    match loop ws1 s with
    | (s1, Done) => (s1, Done)
    | (s1, Running) => loop ws2 s1
    end.
Proof.
  revert s. induction ws1 as [|w ws1 IH]; intros s; simpl.
  - destruct (loop_condition s) eqn:Hc; [reflexivity|].
    destruct ws2; simpl; rewrite Hc; reflexivity.
  - destruct (loop_condition s); [|reflexivity].
    destruct (iteration w s) as [s' [|]]; [reflexivity|]. apply IH.
Qed.

(** ** The claims on the record store and the scan pass *)

(** C1. [save_place] on a record whose key [(name, address)] is already in
    [seen_places] answers [False] and changes nothing (no row, same set,
    same count); on a record with a new key it appends exactly one row,
    adds the key, increments [total_extracted] and answers [True]; a second
    call with any record of the same key then answers [False] and changes
    nothing, so the key is stored in exactly one row. *)
Theorem save_place_idempotent (place_data : gmap string value) (name address : value)
    (s : state) :
  place_data !! "name" = Some name →
  place_data !! "address" = Some address →
  dom place_data ⊆ header_set →
  let row := (λ h, cell_of (default (Some EmptyString) (place_data !! h))) <$> headers in
  let s' := State (Some (default [] (csv_file s) ++ [row])%list)
                  ({[ (name, address) ]} ∪ seen_places s)
                  (total_extracted s + 1) (last_processed_index s) (last_height s)
                  (retries s) (no_new_results_count s) (processed_count s)
                  (dispatched s) in
  ((name, address) ∈ seen_places s → save_place place_data s = (s, Ret false))
  ∧ ((name, address) ∉ seen_places s →
       save_place place_data s = (s', Ret true)
       ∧ ∀ again : gmap string value,
           again !! "name" = Some name → again !! "address" = Some address →
           save_place again s' = (s', Ret false)).
Proof.
  intros Hn Ha Hdom row s'. split.
  - apply (save_place_seen place_data name address); assumption.
  - intros Hnin. split.
    + apply (save_place_fresh place_data name address); [assumption.. | | assumption].
      apply dict_to_list_headers. exact Hdom.
    + intros again Hn' Ha'. apply (save_place_seen again name address); [assumption..|].
      subst s'. simpl. apply elem_of_union_l, elem_of_singleton. reflexivity.
Qed.

Lemma save_place_idempotent_witness :
  let first := save_place sample_place fresh in
  first.2 = Ret true
  ∧ csv_file first.1 =
      Some [headers;
            ["Cafe Luna"; "4.5"; "120"; "1 Main St"; "555-0100";
             "http://luna.example"; "12.5"; "77.25"; "2024-01-01 10:00:00"]]
  ∧ total_extracted first.1 = 1
  ∧ save_place sample_place first.1 = (first.1, Ret false).
Proof.
  destruct (save_place_idempotent sample_place (Some "Cafe Luna") (Some "1 Main St") fresh)
    as [_ Hfresh].
  - reflexivity.
  - reflexivity.
  - apply (bool_decide_unpack _). vm_compute. exact I.
  - destruct Hfresh as [H1 H2].
    + apply (bool_decide_unpack _). vm_compute. exact I.
    + cbv zeta. rewrite H1. cbn [fst snd].
      split; [reflexivity|]. split; [reflexivity|]. split; [reflexivity|].
      apply H2; reflexivity.
Defined.



(** ** The claims on the scroll loop *)

Lemma loop_snoc (ws : list world) (w : world) (s : state) :
  loop (ws ++ [w]) s =
    match loop ws s with
    | (s1, Done) => (s1, Done)
    | (s1, Running) => loop [w] s1
    end.
Proof. apply loop_app. Qed.

(** The state after a single further iteration is the state before it, or
    the result of [iteration]. *)
Lemma loop_one (w : world) (s : state) :
  (loop [w] s).1 = s ∨ (loop [w] s).1 = (iteration w s).1.
Proof.
  simpl. destruct (loop_condition s); [|auto].
  destruct (iteration w s) as [s' [|]]; simpl; [auto|].
  destruct (loop_condition s'); auto.
Qed.

(** While the feed only grows, the cursor stays within the cards of the
    iterations still to come. *)
Lemma loop_cursor_bound (ws : list world) (s : state) (bound : nat) :
  last_processed_index s ≤ bound →
  (∀ w, w ∈ ws → length (rendered w) ≤ bound) →
  last_processed_index s ≤ last_processed_index (loop ws s).1
  ∧ last_processed_index (loop ws s).1 ≤ bound.
Proof.
  revert s. induction ws as [|w ws IH]; intros s Hs Hws; simpl.
  - destruct (loop_condition s); simpl; lia.
  - destruct (loop_condition s); [|simpl; lia].
    pose proof (iteration_cursor w s) as Hc.
    assert (Hw : length (rendered w) ≤ bound) by (apply Hws; left).
    destruct (iteration w s) as [s' [|]]; simpl in *; [lia|].
    destruct (IH s') as [H1 H2]; [lia | intros; apply Hws; right; assumption |].
    lia.
Qed.

(** C5. At every iteration of a session the cursor [last_processed_index]
    does not decrease, whatever the feed shows and whichever calls raise;
    and when the rendered cards only grow from one iteration to the next
    and the cursor starts within the cards first rendered (as it does at
    0), it does not exceed the number of cards rendered at that
    iteration. The states compared are those the loop has reached before
    and after the iteration at position [n]. *)
Theorem cursor_invariant (ws : list world) (s : state) (n : nat) (w : world) :
  ws !! n = Some w →
  let before := (monitor_scrolling (take n ws) s).1 in
  let after := (monitor_scrolling (take (S n) ws) s).1 in
  last_processed_index before ≤ last_processed_index after
  ∧ (append_only ws →
     (∀ w0, ws !! 0 = Some w0 → last_processed_index s ≤ length (rendered w0)) →
     last_processed_index after ≤ length (rendered w)).
Proof.
  intros Hw before after.
  set (s0 := set_last_height 0 (set_retries 0 (set_no_new_results_count 0
                (set_processed_count 0 s)))) in *.
  assert (Hafter : after = before
                   ∨ after = (iteration w before).1).
  { subst after before. unfold monitor_scrolling. fold s0.
    rewrite (take_S_r ws n w Hw), loop_snoc.
    destruct (loop (take n ws) s0) as [s1 [|]]; [left; reflexivity|].
    apply loop_one. }
  split.
  - destruct Hafter as [->| ->]; [lia|].
    destruct (iteration_cursor w before) as [->|[Hlt ->]]; lia.
  - intros Happ Hstart.
    assert (Hs0 : last_processed_index s0 ≤ length (rendered w)).
    { change (last_processed_index s ≤ length (rendered w)).
      destruct ws as [|w0 ws']; [discriminate Hw|].
      etransitivity; [apply (Hstart w0 eq_refl)|].
      apply prefix_length. apply (Happ 0 n w0 w); [lia | reflexivity | exact Hw]. }
    assert (Hbefore : last_processed_index before ≤ length (rendered w)).
    { subst before. unfold monitor_scrolling. fold s0.
      apply (loop_cursor_bound (take n ws) s0 (length (rendered w))); [exact Hs0|].
      intros w' Hin. apply list_elem_of_lookup in Hin as [i Hi].
      apply lookup_take_Some in Hi as [Hi Hlt].
      apply prefix_length. apply (Happ i n w' w); [lia | assumption..]. }
    destruct Hafter as [->| ->]; [lia|].
    destruct (iteration_cursor w before) as [->|[Hlt ->]]; lia.
Qed.

(** A feed that grows from 5 to 8 cards moves the cursor from 5 to 8; a
    feed that shrinks from 8 to 3 cards leaves it at 8. *)
Lemma cursor_invariant_witness :
  let grows := [quiet (take 5 cards8) 100 100; quiet cards8 200 200] in
  let shrinks := [quiet cards8 100 100; quiet (take 3 cards8) 200 200] in
  last_processed_index (monitor_scrolling (take 1 grows) fresh).1 = 5
  ∧ last_processed_index (monitor_scrolling (take 1 grows) fresh).1
      ≤ last_processed_index (monitor_scrolling (take 2 grows) fresh).1
  ∧ last_processed_index (monitor_scrolling (take 2 grows) fresh).1 ≤ 8
  ∧ last_processed_index (monitor_scrolling (take 1 shrinks) fresh).1 = 8
  ∧ last_processed_index (monitor_scrolling (take 1 shrinks) fresh).1
      ≤ last_processed_index (monitor_scrolling (take 2 shrinks) fresh).1.
Proof.
  intros grows shrinks.
  destruct (cursor_invariant grows fresh 1 (quiet cards8 200 200) eq_refl)
    as [Hmono Hbound].
  destruct (cursor_invariant shrinks fresh 1 (quiet (take 3 cards8) 200 200) eq_refl)
    as [Hmono' _].
  split; [vm_compute; reflexivity|]. split; [exact Hmono|]. split.
  - apply Hbound.
    + intros i j wi wj Hij Hi Hj.
      destruct i as [|[|i]]; destruct j as [|[|j]]; simpl in Hi, Hj;
        try discriminate; try lia;
        injection Hi as <-; injection Hj as <-; simpl;
        first [ reflexivity | by eexists [_; _; _] ].
    + intros w0 [= <-]. simpl. lia.
  - split; [vm_compute; reflexivity | exact Hmono'].
Defined.

(** The counter that ends the loop, after a fault-free iteration: the scan
    pass sets it to 0 when it found new cards and adds one otherwise; the
    height check adds one when the stall is confirmed. *)
Lemma iteration_counters (w : world) (s : state) :
  fault_free w →
  let s' := (iteration w s).1 in
  (iteration w s).2 = false
  ∧ no_new_results_count s' =
      (if decide (last_processed_index s < length (rendered w)) then 0
       else no_new_results_count s + 1)
      + (if height_changed w (last_height s) then 0 else 1)
  ∧ retries s' = (if height_changed w (last_height s) then 0 else retries s)
  ∧ last_height s' = final_reading w (last_height s).
Proof.
  intros Hw.
  destruct (iteration_fault_free w s Hw) as (s1 & s2 & Hscan & Hcheck & _ & Hit).
  destruct (scan_pass_total (rendered w) s) as (s1' & Hscan' & _ & _ & Hn & Hh & Hr).
  rewrite Hscan in Hscan'. injection Hscan' as <-.
  pose proof (height_check_counters w s1) as Hc.
  rewrite Hcheck in Hc. simpl in Hc. rewrite Hh in Hc.
  rewrite Hit. simpl. destruct Hc as [Hl Hc]. split; [reflexivity|].
  destruct (height_changed w (last_height s)); destruct Hc as [Hc1 Hc2];
    rewrite Hc1, Hc2, Hl, Hn; repeat split; try lia; congruence.
Qed.

(** Without faults the error counter stays where the session starts it,
    at 0. *)
Lemma loop_fault_free (ws : list world) (s : state) :
  Forall fault_free ws →
  retries s = 0 →
  retries (loop ws s).1 = 0
  ∧ ((loop ws s).2 = Done ↔ 3 ≤ no_new_results_count (loop ws s).1).
Proof.
  intros Hws. revert s. induction Hws as [|w ws Hw Hws IH]; intros s Hr; simpl.
  - unfold loop_condition. rewrite Hr. unfold MAX_RETRIES.
    rewrite (bool_decide_eq_true_2 (0 < 3)) by lia. simpl.
    destruct (bool_decide (no_new_results_count s < 3)) eqn:Hc; simpl.
    + apply bool_decide_eq_true_1 in Hc. split; [assumption|]. split; [discriminate|lia].
    + apply bool_decide_eq_false_1 in Hc. split; [assumption|]. split; [lia|reflexivity].
  - unfold loop_condition. rewrite Hr. unfold MAX_RETRIES.
    rewrite (bool_decide_eq_true_2 (0 < 3)) by lia. simpl.
    destruct (bool_decide (no_new_results_count s < 3)) eqn:Hc; simpl.
    + pose proof (iteration_counters w s Hw) as (Hstop & _ & Hr' & _).
      destruct (iteration w s) as [s' stop]. simpl in *. subst stop.
      apply IH. rewrite Hr'. destruct (height_changed _ _); [reflexivity|assumption].
    + apply bool_decide_eq_false_1 in Hc. split; [assumption|]. split; [lia|reflexivity].
Qed.

(** Once no new card appears, every iteration adds to the counter, and
    the loop is left after three of them at the latest. *)
Lemma loop_ends_without_new_cards (ws : list world) (s : state) :
  Forall fault_free ws →
  (∀ w, w ∈ ws → length (rendered w) ≤ last_processed_index s) →
  retries s = 0 →
  3 ≤ no_new_results_count s + length ws →
  (loop ws s).2 = Done.
Proof.
  intros Hws. revert s. induction Hws as [|w ws Hw Hws IH]; intros s Hcards Hr Hn.
  - simpl in *. unfold loop_condition.
    rewrite (bool_decide_eq_false_2 (no_new_results_count s < 3)) by lia.
    rewrite andb_false_r. reflexivity.
  - cbn [loop]. destruct (loop_condition s); [|reflexivity].
    pose proof (iteration_counters w s Hw) as (Hstop & Hc & Hr' & _).
    pose proof (iteration_cursor w s) as Hi.
    assert (Hlen : length (rendered w) ≤ last_processed_index s) by (apply Hcards; left).
    destruct (iteration w s) as [s' stop]. simpl in *. subst stop.
    destruct (decide (last_processed_index s < length (rendered w))) as [|_]; [lia|].
    apply IH.
    + intros w' Hw'. destruct Hi as [->|[? _]]; [|lia]. apply Hcards. right. exact Hw'.
    + rewrite Hr'. destruct (height_changed _ _); [reflexivity | exact Hr].
    + lia.
Qed.

(** An iteration answers [break] exactly when the results panel is not
    found. *)
Lemma iteration_stop (w : world) (s : state) :
  (iteration w s).2 = true ↔ feed w = Ret false.
Proof.
  unfold iteration. rewrite try_body_unfold.
  destruct (feed w) as [[|]|]; simpl; [|split; auto | split; discriminate].
  destruct (find_elements_fault w); simpl; [split; discriminate|].
  destruct (scroll_top w); simpl; [|split; discriminate].
  destruct (scroll_to w _); simpl; [|split; discriminate].
  destruct (height_check w _) as [s2 [ [] | e ]]; simpl; split; discriminate.
Qed.

(** The counter that ends the loop, after any iteration. *)
Lemma iteration_counter_all (w : world) (s : state) :
  no_new_results_count (iteration w s).1 =
    if scan_reached w then
      (if decide (last_processed_index s < length (rendered w)) then 0
       else no_new_results_count s + 1)
      + (if stall_confirmed w (last_height s) then 1 else 0)
    else no_new_results_count s.
Proof.
  unfold iteration, scan_reached, stall_confirmed. rewrite try_body_unfold.
  destruct (feed w) as [[|]|]; simpl; try reflexivity.
  destruct (find_elements_fault w); simpl; [reflexivity|].
  destruct (scan_pass_total (rendered w) s) as (s1 & Hs & _ & _ & Hn & Hh & _).
  rewrite Hs. simpl.
  destruct (scroll_top w) as [top|]; simpl; [|lia].
  destruct (scroll_to w _); simpl; [|lia].
  rewrite height_check_unfold, Hh.
  destruct (scroll_height w) as [nh|]; simpl; [|lia].
  destruct (decide (nh = last_height s)) as [->|Hne]; simpl; [|lia].
  destruct (scroll_height_after_wait w) as [uh|]; simpl; [|lia].
  destruct (decide (uh = last_height s)) as [->|Hne]; simpl.
  - rewrite bool_decide_eq_true_2 by reflexivity. lia.
  - rewrite bool_decide_eq_false_2 by exact Hne. simpl. lia.
Qed.

(** The loop is left when its condition fails or when an iteration, met
    while the loop was running, did not find the results panel. *)
Lemma loop_done_iff (ws : list world) (s : state) :
  (loop ws s).2 = Done ↔
    loop_condition (loop ws s).1 = false
    ∨ ∃ k w, ws !! k = Some w ∧ (loop (take k ws) s).2 = Running ∧ feed w = Ret false.
Proof.
  revert s. induction ws as [|w ws IH]; intros s.
  - simpl. destruct (loop_condition s) eqn:Hc; simpl.
    + split; [discriminate|]. intros [H|(k & w & H & _)]; [congruence | discriminate H].
    + split; [auto | reflexivity].
  - cbn [loop]. destruct (loop_condition s) eqn:Hc.
    2:{ simpl. split; [auto | reflexivity]. }
    pose proof (iteration_stop w s) as Hstop.
    destruct (iteration w s) as [s' stop] eqn:Hit. simpl in Hstop.
    destruct stop.
    + simpl. split; [|reflexivity]. intros _. right. exists 0, w.
      split; [reflexivity|]. split; [simpl; rewrite Hc; reflexivity|].
      apply Hstop. reflexivity.
    + rewrite IH. split.
      * intros [H|(k & w' & Hk & Hrun & Hf)]; [left; exact H|].
        right. exists (S k), w'. split; [exact Hk|]. split; [|exact Hf].
        cbn [take loop]. rewrite Hc, Hit. exact Hrun.
      * intros [H|(k & w' & Hk & Hrun & Hf)]; [left; exact H|].
        destruct k as [|k].
        -- simpl in Hk. injection Hk as <-. apply Hstop in Hf. discriminate Hf.
        -- right. exists k, w'. split; [exact Hk|]. split; [|exact Hf].
           cbn [take loop] in Hrun. rewrite Hc, Hit in Hrun. exact Hrun.
Qed.

(** Iterations whose scan pass runs and finds no new card add to the
    counter until the loop is left. *)
Lemma loop_cardless (n : nat) (ws : list world) (s : state) :
  3 ≤ no_new_results_count s + n →
  n ≤ length ws →
  Forall (λ w, scan_reached w = true ∧ length (rendered w) ≤ last_processed_index s)
         (take n ws) →
  (loop ws s).2 = Done.
Proof.
  revert ws s. induction n as [|n IH]; intros ws s Hc Hlen Hall.
  - destruct ws; simpl; unfold loop_condition;
      rewrite (bool_decide_eq_false_2 (no_new_results_count s < 3)) by lia;
      rewrite andb_false_r; reflexivity.
  - destruct ws as [|w ws]; [simpl in Hlen; lia|].
    cbn [take] in Hall. apply Forall_cons in Hall as [[Hscan Hcards] Hall].
    cbn [loop]. destruct (loop_condition s); [|reflexivity].
    pose proof (iteration_counter_all w s) as Hcount. rewrite Hscan in Hcount.
    destruct (decide (last_processed_index s < length (rendered w))) as [|_]; [lia|].
    pose proof (iteration_cursor w s) as Hcur.
    destruct (iteration w s) as [s' stop]. simpl in *.
    destruct stop; [reflexivity|].
    assert (Hidx : last_processed_index s' = last_processed_index s)
      by (destruct Hcur as [H|[H _]]; [exact H | lia]).
    apply IH; [lia | lia |]. rewrite Hidx. exact Hall.
Qed.

(** C2, as the code has it. In every run in which [retries] stays below
    [MAX_RETRIES], the loop is left exactly when [no_new_results_count]
    has reached 3 or an iteration did not find the results panel (the
    [break] of line 189). That single counter serves two purposes: an
    iteration that does not reach the scan pass leaves it as it is; a
    scan pass that finds new cards puts it back to 0 and one that finds
    none adds one to it; a confirmed height stall adds one to it; a
    changed height does not put it back. Hence, wherever they occur in a
    run, three iterations in a row whose scan pass runs and finds no new
    card end the session. *)
Theorem done_iff_no_new_results (ws : list world) (s : state) :
  let final := monitor_scrolling ws s in
  (retries final.1 < MAX_RETRIES →
   (final.2 = Done ↔
      3 ≤ no_new_results_count final.1
      ∨ ∃ k w, ws !! k = Some w
               ∧ (monitor_scrolling (take k ws) s).2 = Running
               ∧ feed w = Ret false))
  ∧ (∀ (w : world) (s1 : state),
       no_new_results_count (iteration w s1).1 =
         if scan_reached w then
           (if decide (last_processed_index s1 < length (rendered w)) then 0
            else no_new_results_count s1 + 1)
           + (if stall_confirmed w (last_height s1) then 1 else 0)
         else no_new_results_count s1)
  ∧ (∀ before cardless : list world,
       Forall (λ w, scan_reached w = true
                    ∧ length (rendered w)
                        ≤ last_processed_index (monitor_scrolling before s).1)
              (take 3 cardless) →
       3 ≤ length cardless →
       (monitor_scrolling (before ++ cardless)%list s).2 = Done).
Proof.
  intros final. split; [|split].
  - intros Hr. subst final. unfold monitor_scrolling in *.
    set (s0 := set_last_height 0 _) in *.
    rewrite loop_done_iff. unfold loop_condition.
    rewrite (bool_decide_eq_true_2 _ Hr). simpl.
    destruct (decide (no_new_results_count (loop ws s0).1 < 3)) as [Hlt|Hge].
    + rewrite (bool_decide_eq_true_2 _ Hlt).
      split; (intros [H|H]; [first [discriminate H | lia] | right; exact H]).
    + rewrite (bool_decide_eq_false_2 _ Hge).
      split; intros _; left; [lia | reflexivity].
  - intros w s1. apply iteration_counter_all.
  - intros before cardless Hall Hlen. unfold monitor_scrolling in *.
    rewrite loop_app.
    destruct (loop before _) as [s1 [|]]; [reflexivity|].
    apply (loop_cardless 3); [lia | exact Hlen | exact Hall].
Qed.

Lemma quiet_fault_free (cs : list card) (h1 h2 : Z) : fault_free (quiet cs h1 h2).
Proof. repeat split; simpl; eauto. Qed.

(** A card-less iteration that confirms the stall and a card-less one that
    reads a new height end the session with the counter at 3; and after an
    iteration that found cards, three iterations in a row that find none,
    two of them raising later on, end it. *)
Lemma done_iff_no_new_results_witness :
  let final := monitor_scrolling [quiet [] 0 0; quiet [] 100 100] fresh in
  final.2 = Done ∧ no_new_results_count final.1 = 3
  ∧ (monitor_scrolling
       ([quiet cards8 100 100]
        ++ [faulty cards8; quiet (take 3 cards8) 200 200; faulty cards8])%list fresh).2
    = Done.
Proof.
  intros final.
  destruct (done_iff_no_new_results [quiet [] 0 0; quiet [] 100 100] fresh)
    as (Hdone & _ & _).
  destruct (done_iff_no_new_results [] fresh) as (_ & _ & Hthree).
  split; [|split; [vm_compute; reflexivity|]].
  - apply Hdone; [vm_compute; lia|]. left. vm_compute. lia.
  - apply (Hthree [quiet cards8 100 100]
             [faulty cards8; quiet (take 3 cards8) 200 200; faulty cards8]).
    + repeat constructor; vm_compute; lia.
    + simpl. lia.
Defined.

(** C2 as the specification words it fails in both directions. Three card-less
    iterations whose height grows every time end the session although no
    stall was ever confirmed; and four iterations that each confirm a stall
    do not end it when each of them found a new card. A session also ends,
    with no stall confirmed and no error counted, when the results panel
    is not found. *)
Lemma done_without_three_stalls :
  let growing := [quiet [] 100 100; quiet [] 200 200; quiet [] 300 300] in
  let stalled := [quiet (take 1 cards8) 0 0; quiet (take 2 cards8) 0 0;
                  quiet (take 3 cards8) 0 0; quiet (take 4 cards8) 0 0] in
  Forall fault_free growing
  ∧ (monitor_scrolling growing fresh).2 = Done
  ∧ spec_stall_counts growing 0 0 = [0; 0; 0]
  ∧ Forall fault_free stalled
  ∧ (monitor_scrolling stalled fresh).2 = Running
  ∧ spec_stall_counts stalled 0 0 = [1; 2; 3; 4]
  ∧ monitor_scrolling [no_feed] fresh = (fresh, Done).
Proof.
  intros growing stalled.
  split; [repeat constructor; apply quiet_fault_free|].
  split; [vm_compute; reflexivity|].
  split; [vm_compute; reflexivity|].
  split; [repeat constructor; apply quiet_fault_free|].
  split; [vm_compute; reflexivity|].
  split; vm_compute; reflexivity.
Qed.

Lemma height_changed_reading (w : world) (h : Z) :
  height_changed w h = true → final_reading w h ≠ h.
Proof.
  unfold height_changed, final_reading.
  destruct (scroll_height w) as [nh|]; [|discriminate].
  destruct (decide (nh = h)); [|auto].
  destruct (scroll_height_after_wait w) as [uh|]; [|discriminate].
  intros H. apply bool_decide_eq_true_1 in H. exact H.
Qed.

(** C3, as the code has it. In a fault-free iteration in which a re-read
    height differs from the recorded one (at the check after the short
    pause or at the re-check after the long wait), the new height is
    recorded and the error counter [retries] is put back to 0. The counter
    that ends the loop is not put back: it keeps the value the scan pass
    gave it. *)
Theorem height_change_recorded (w : world) (s : state) :
  fault_free w →
  height_changed w (last_height s) = true →
  let s' := (iteration w s).1 in
  last_height s' = final_reading w (last_height s)
  ∧ last_height s' ≠ last_height s
  ∧ retries s' = 0
  ∧ no_new_results_count s' =
      (if decide (last_processed_index s < length (rendered w)) then 0
       else no_new_results_count s + 1)
  ∧ (iteration w s).2 = false.
Proof.
  intros Hw Hch s'.
  pose proof (iteration_counters w s Hw) as (Hstop & Hn & Hr & Hl).
  fold s' in Hn, Hr, Hl. rewrite Hch in Hn, Hr.
  split; [exact Hl|]. split.
  - rewrite Hl. apply height_changed_reading. exact Hch.
  - split; [exact Hr|]. split; [lia | exact Hstop].
Qed.

Lemma height_change_recorded_witness :
  let s' := (iteration (quiet cards8 0 640) fresh).1 in
  last_height s' = 640%Z ∧ retries s' = 0 ∧ no_new_results_count s' = 0.
Proof.
  intros s'.
  destruct (height_change_recorded (quiet cards8 0 640) fresh) as (Hl & _ & Hr & Hn & _).
  - repeat split; simpl; eauto.
  - reflexivity.
  - split; [exact Hl|]. split; [exact Hr|]. exact Hn.
Defined.

(** C3 as the specification words it fails: after an iteration that confirmed a
    stall, an iteration that finds no new card and reads a greater height
    records the height but leaves the counter at 3, not at 0. *)
Lemma stall_counter_not_reset :
  let s1 := (iteration (quiet [] 0 0) fresh).1 in
  let s2 := (iteration (quiet [] 100 100) s1).1 in
  no_new_results_count s1 = 2
  ∧ height_changed (quiet [] 100 100) (last_height s1) = true
  ∧ last_height s2 = 100%Z
  ∧ no_new_results_count s2 = 3.
Proof. vm_compute. auto. Qed.

(** C6, as the code has it. [retries] goes up by one exactly when an
    exception leaves the [try] block; an iteration without exception puts
    it back to 0 when it read a changed height and leaves it as it is when
    the stall was confirmed or the feed was not found. Once it has reached
    [MAX_RETRIES] the loop is left in the ordinary way, and the iteration
    whose exception brings it there is the last one. *)
Theorem retries_policy (w : world) (s : state) (ws : list world) :
  retries (iteration w s).1 =
    match (try_body w s).2 with
    | Raise _ => retries s + 1
    | Ret true => retries s
    | Ret false => if height_changed w (last_height s) then 0 else retries s
    end
  ∧ (MAX_RETRIES ≤ retries s → loop ws s = (s, Done))
  ∧ (loop_condition s = true → retries s + 1 = MAX_RETRIES →
     ∀ e, (try_body w s).2 = Raise e →
          loop (w :: ws) s = ((iteration w s).1, Done)).
Proof.
  assert (Heq : retries (iteration w s).1 =
    match (try_body w s).2 with
    | Raise _ => retries s + 1
    | Ret true => retries s
    | Ret false => if height_changed w (last_height s) then 0 else retries s
    end).
  { unfold iteration. rewrite try_body_unfold.
    destruct (feed w) as [[|]|]; simpl; [|reflexivity..].
    destruct (find_elements_fault w); simpl; [reflexivity|].
    destruct (scan_pass_total (rendered w) s) as (s1 & Hs & _ & _ & _ & Hh & Hr).
    rewrite Hs. simpl.
    destruct (scroll_top w); simpl; [|congruence].
    destruct (scroll_to w _); simpl; [|congruence].
    pose proof (height_check_counters w s1) as Hc.
    destruct (height_check w s1) as [s2 [ [] | e ]]; simpl in *.
    - rewrite Hh in Hc. destruct Hc as [_ Hc].
      destruct (height_changed w (last_height s)); destruct Hc; congruence.
    - subst s2. congruence. }
  split; [exact Heq|]. split.
  - intros Hmax. destruct ws; simpl; unfold loop_condition;
      rewrite (bool_decide_eq_false_2 (retries s < MAX_RETRIES)) by lia; reflexivity.
  - intros Hcond Hlast e He. simpl. rewrite Hcond.
    rewrite He in Heq.
    assert (Hstop : (iteration w s).2 = false).
    { unfold iteration. destruct (try_body w s) as [s1 [b|e']]; simpl in *;
        [discriminate | reflexivity]. }
    destruct (iteration w s) as [s' stop]. simpl in *. subst stop.
    destruct ws; simpl; unfold loop_condition;
      rewrite (bool_decide_eq_false_2 (retries s' < MAX_RETRIES)) by lia; reflexivity.
Qed.

Lemma retries_policy_witness :
  let s2 := (loop [faulty []; faulty []] fresh).1 in
  retries s2 = 2
  ∧ loop [faulty []; quiet [] 0 0] s2 = ((iteration (faulty []) s2).1, Done)
  ∧ retries (iteration (faulty []) s2).1 = 3.
Proof.
  intros s2.
  assert (H2 : retries s2 = 2) by (vm_compute; reflexivity).
  destruct (retries_policy (faulty []) s2 [quiet [] 0 0]) as (Heq & _ & Hlast).
  split; [exact H2|]. split.
  - apply (Hlast ltac:(vm_compute; reflexivity) ltac:(vm_compute; reflexivity)
             WebDriverException).
    vm_compute. reflexivity.
  - rewrite Heq. vm_compute. reflexivity.
Defined.

(** C6 as the specification words it fails: after an iteration that raised, an
    iteration without exception that confirms the stall leaves [retries]
    at 1. *)
Lemma retries_not_reset_by_stall :
  let s1 := (iteration (faulty []) fresh).1 in
  retries s1 = 1
  ∧ (try_body (quiet [] 0 0) s1).2 = Ret false
  ∧ retries (iteration (quiet [] 0 0) s1).1 = 1.
Proof. vm_compute. auto. Qed.

(** ** Loading the store: [setup_files] *)










(** X5. The constructor runs [setup_files] before [self.seen_places] exists:
    a store with a stored row makes it raise [AttributeError], and a store
    without one starts the session from the empty set. *)
Lemma init_before_seen_places (fieldnames row : list string) (rows : list (list string)) :
  row ≠ [] →
  init (Some (fieldnames :: row :: rows)) = Raise AttributeError
  ∧ init (Some [fieldnames]) = Ret (State (Some [fieldnames]) ∅ 0 0 0%Z 0 0 0 [])
  ∧ init None = Ret fresh.
Proof.
  intros Hrow. split; [|split; reflexivity].
  unfold init, setup_files, dict_reader.
  rewrite filter_cons_True by exact Hrow. reflexivity.
Qed.

(** ** The e-mail pass: duplicates *)

Lemma process_emails_app (l1 l2 : list string) (seen : gset string) :
  process_emails (l1 ++ l2)%list seen =
    ((process_emails l1 seen).1 ++ (process_emails l2 (process_emails l1 seen).2).1,
     (process_emails l2 (process_emails l1 seen).2).2)%list.
Proof.
  revert seen. induction l1 as [|e l1 IH]; intros seen; simpl.
  - destruct (process_emails l2 seen); reflexivity.
  - destruct (is_unique_email e seen) as [u seen1].
    rewrite IH. destruct (process_emails l1 seen1) as [o1 s1]. simpl.
    destruct u; reflexivity.
Qed.

Lemma process_emails_seen (l : list string) (seen : gset string) :
  (process_emails l seen).2 = seen ∪ list_to_set (normalize_email <$> l).
Proof.
  revert seen. induction l as [|e l IH]; intros seen; simpl.
  - apply set_eq. intros x. rewrite elem_of_union, elem_of_empty. tauto.
  - unfold is_unique_email.
    destruct (decide (normalize_email e ∈ seen)) as [Hin|Hnin];
      specialize (IH (if decide (normalize_email e ∈ seen) then seen
                      else {[ normalize_email e ]} ∪ seen));
      destruct (decide _); try contradiction;
      destruct (process_emails l _) as [o s2]; simpl in *; rewrite IH;
      apply set_eq; intros x; rewrite !elem_of_union, elem_of_singleton;
      [ split; [tauto | intros [?|[->|?]]; tauto] | tauto ].
Qed.

Lemma process_emails_fresh (l : list string) (seen : gset string) :
  (∀ e, e ∈ (process_emails l seen).1 → normalize_email e ∉ seen)
  ∧ NoDup (normalize_email <$> (process_emails l seen).1).
Proof.
  revert seen. induction l as [|e l IH]; intros seen; simpl.
  - split; [intros e He; inversion He | constructor].
  - unfold is_unique_email.
    destruct (decide (normalize_email e ∈ seen)) as [Hin|Hnin].
    + destruct (IH seen) as [H1 H2].
      destruct (process_emails l seen) as [o s2]. simpl in *. auto.
    + destruct (IH ({[ normalize_email e ]} ∪ seen)) as [H1 H2].
      destruct (process_emails l _) as [o s2]. simpl in *. split.
      * intros e' He'. apply elem_of_cons in He' as [->|He']; [assumption|].
        intros Hs. apply (H1 e' He'). apply elem_of_union_r. exact Hs.
      * constructor; [|exact H2].
        intros Hdup. apply list_elem_of_fmap in Hdup as (e' & Heq & He').
        apply (H1 e' He'). apply elem_of_union_l, elem_of_singleton. congruence.
Qed.

(** The e-mails kept, position by position, in terms of the code's own
    [normalize_email]. *)
Lemma process_emails_decompose (pre post : list string) (email : string)
    (seen : gset string) :
  (process_emails (pre ++ email :: post)%list seen).1 =
    ((process_emails pre seen).1
     ++ (if decide (normalize_email email ∈ seen
                    ∨ normalize_email email ∈ normalize_email <$> pre)
         then [] else [email])
     ++ (process_emails post
           (seen ∪ list_to_set (normalize_email <$> (pre ++ [email])%list))).1)%list
  ∧ NoDup (normalize_email <$> (process_emails (pre ++ email :: post)%list seen).1)
  ∧ (process_emails (pre ++ email :: post)%list seen).2 =
      seen ∪ list_to_set (normalize_email <$> (pre ++ email :: post)%list)
  ∧ process_emails ["A@Foo.COM"; "a@foo.com"] ∅ = (["A@Foo.COM"], {[ "a@foo.com" ]}).
Proof.
  split; [|split; [apply process_emails_fresh | split; [apply process_emails_seen|]]].
  - rewrite process_emails_app. cbn [fst]. f_equal.
    change (email :: post) with ([email] ++ post)%list.
    rewrite process_emails_app. cbn [fst]. f_equal.
    + cbn [process_emails]. unfold is_unique_email.
      rewrite process_emails_seen.
      destruct (decide (normalize_email email ∈ _)) as [Hin|Hnin];
        destruct (decide (_ ∨ _)) as [Hor|Hnor]; simpl; try reflexivity.
      * exfalso. apply Hnor. apply elem_of_union in Hin as [?|Hin]; [auto|].
        right. apply elem_of_list_to_set in Hin. exact Hin.
      * exfalso. apply Hnin. apply elem_of_union. destruct Hor as [?|Hp]; [auto|].
        right. apply elem_of_list_to_set. exact Hp.
    + f_equal. f_equal. rewrite <- (process_emails_seen (pre ++ [email])%list seen).
      rewrite process_emails_app. reflexivity.
  - vm_compute. reflexivity.
Qed.

(** ** The e-mail pass: the output file *)

Lemma row_get_row_set_ne (row : row_dict) (key label : string) (v : value) :
  label ≠ key → row_get (row_set row key v) label = row_get row label.
Proof.
  intros Hne. induction row as [|[k x] row IH]; simpl.
  - destruct (decide (key = label)); [congruence | reflexivity].
  - destruct (decide (k = key)) as [->|Hk]; simpl.
    + destruct (decide (key = label)); [congruence | reflexivity].
    + destruct (decide (k = label)); [reflexivity | exact IH].
Qed.

Lemma row_get_row_set_eq (row : row_dict) (key : string) (v : value) :
  row_get (row_set row key v) key = Ret v.
Proof.
  induction row as [|[k x] row IH]; simpl.
  - destruct (decide (key = key)); [reflexivity | contradiction].
  - destruct (decide (k = key)) as [->|Hk]; simpl.
    + destruct (decide (key = key)); [reflexivity | contradiction].
    + destruct (decide (k = key)); [contradiction | exact IH].
Qed.

Lemma row_get_key (row : row_dict) (key : string) :
  key ∈ row.*1 → ∃ v, row_get row key = Ret v.
Proof.
  induction row as [|[k x] row IH]; simpl; intros Hin.
  - inversion Hin.
  - destruct (decide (k = key)); [eauto|].
    apply elem_of_cons in Hin as [?|Hin]; [congruence | auto].
Qed.

(** The loop over the input rows in closed form: the rows added to
    [results], which are also the rows added to the file, one for each
    input row with a website, in order. *)
Lemma enrich_rows_total (fetch : fetcher) (rows : list row_dict) (results : list row_dict)
    (s : scraper) :
  Forall (λ row, ∃ v, row_get row "website" = Ret v) rows →
  ∃ new s',
    enrich_rows fetch rows results s = (s', Ret (results ++ new)%list)
    ∧ Forall2 augments new (filter (λ r, has_website r = true) rows)
    ∧ output_file s' = foldl (λ f r, save_row_to_csv r f) (output_file s) new.
Proof.
  intros Hrows. revert results s.
  induction Hrows as [|row rows [v Hv] _ IH]; intros results s.
  - exists [], s. simpl. rewrite app_nil_r. repeat split. constructor.
  - cbn [enrich_rows]. rewrite Hv. destruct v as [website|].
    + destruct (scrape_email_from_website fetch website (seen_emails s)) as [emails seen].
      match goal with
      | |- context [enrich_rows fetch rows (results ++ [?r])%list ?s1] =>
          destruct (IH (results ++ [r])%list s1) as (new & s' & Hrun & Hall & Hfile);
          exists (r :: new), s'
      end.
      split; [rewrite Hrun, <- app_assoc; reflexivity|]. split.
      * rewrite filter_cons_True by (unfold has_website; rewrite Hv; reflexivity).
        constructor; [|exact Hall]. split.
        -- intros label Hne. apply row_get_row_set_ne. exact Hne.
        -- eexists. apply row_get_row_set_eq.
      * rewrite Hfile. reflexivity.
    + destruct (IH results s) as (new & s' & Hrun & Hall & Hfile).
      exists new, s'. split; [exact Hrun|]. split; [|exact Hfile].
      rewrite filter_cons_False; [exact Hall|].
      unfold has_website. rewrite Hv. discriminate.
Qed.

Lemma iterrows_website (df : dataframe) :
  "website" ∈ columns df → rectangular df →
  Forall (λ row, ∃ v, row_get row "website" = Ret v) (iterrows df).
Proof.
  intros Hcol Hrect. unfold iterrows. apply Forall_fmap.
  eapply Forall_impl; [exact Hrect|]. intros r Hr. simpl in *.
  apply row_get_key. rewrite fst_zip by lia. exact Hcol.
Qed.

Lemma with_websites_rows (df df' : dataframe) :
  with_websites df = Ret df' →
  iterrows df' = filter (λ r, has_website r = true) (iterrows df).
Proof.
  unfold with_websites. destruct (decide _); [|discriminate].
  intros [= <-]. unfold iterrows. simpl.
  induction (data df) as [|r rs IH]; [reflexivity|].
  rewrite fmap_cons.
  destruct (decide (has_website (zip (columns df) r) = true)) as [Hw|Hw].
  - rewrite !filter_cons_True by exact Hw. rewrite fmap_cons, IH. reflexivity.
  - rewrite !filter_cons_False by exact Hw. exact IH.
Qed.

(** C10. The enrichment pass writes a row only for an input record whose
    website cell is present. For a frame with a [website] column: the rows
    collected in [results] are, in order, the augmented records of exactly
    the input rows with a website; the rows appended to the file during
    the loop are those same rows; the final file holds them and nothing
    else. A record without a website leaves no row. The filter of [main]
    keeps the same rows, and the stored sentinel [N/A] and the empty cell
    are read back as absent. *)
Theorem rows_without_website_dropped (fetch : fetcher) (df : dataframe) (s : scraper)
    (seen : gset string) :
  "website" ∈ columns df →
  rectangular df →
  preload_emails (output_file s) (seen_emails s) = Ret seen →
  (∃ results s1,
     enrich_rows fetch (iterrows df) [] (Scraper seen (output_file s)) = (s1, Ret results)
     ∧ Forall2 augments results (filter (λ r, has_website r = true) (iterrows df))
     ∧ output_file s1 = foldl (λ f r, save_row_to_csv r f) (output_file s) results
     ∧ process_websites fetch df s =
         (Scraper (seen_emails s1) (Some (to_csv results)), Ret tt))
  ∧ (∀ df', with_websites df = Ret df' →
            iterrows df' = filter (λ r, has_website r = true) (iterrows df))
  ∧ read_cell "N/A" = None ∧ read_cell EmptyString = None.
Proof.
  intros Hcol Hrect Hpre. split; [|split; [apply with_websites_rows | split; reflexivity]].
  destruct (enrich_rows_total fetch (iterrows df) [] (Scraper seen (output_file s))
              (iterrows_website df Hcol Hrect)) as (new & s1 & Hrun & Hall & Hfile).
  exists new, s1. simpl in Hrun. split; [exact Hrun|]. split; [exact Hall|].
  split; [exact Hfile|].
  unfold process_websites. rewrite Hpre, Hrun. reflexivity.
Qed.

Lemma rows_without_website_dropped_witness :
  ∃ results s1,
    enrich_rows sample_fetch (iterrows sample_frame) [] (Scraper ∅ None) = (s1, Ret results)
    ∧ Forall2 augments results
        (filter (λ r, has_website r = true) (iterrows sample_frame))
    ∧ output_file s1 = foldl (λ f r, save_row_to_csv r f) None results
    ∧ process_websites sample_fetch sample_frame (Scraper ∅ None) =
        (Scraper (seen_emails s1) (Some (to_csv results)), Ret tt).
Proof.
  destruct (rows_without_website_dropped sample_fetch sample_frame (Scraper ∅ None) ∅)
    as [H _].
  - apply (bool_decide_unpack _). vm_compute. exact I.
  - repeat constructor.
  - reflexivity.
  - exact H.
Defined.

(** C8, the code at the failing input. Over the output of an earlier run
    the loop appends the new rows to the file, and the final save then
    writes the file anew from [results] alone: the row of the earlier run
    is gone when the run completes. *)
Theorem final_save_drops_prior_rows :
  let s0 := Scraper ∅ (Some prior_output) in
  let run := process_websites sample_fetch sample_frame s0 in
  let prior_row := ["Old Cafe"; "http://old.example"; "old@old.example"] in
  prior_row ∈ prior_output
  ∧ (preload_emails (Some prior_output) ∅) = Ret {[ "old@old.example" ]}
  ∧ output_file (enrich_rows sample_fetch (iterrows sample_frame) []
                   (Scraper {[ "old@old.example" ]} (Some prior_output))).1
    = Some (prior_output
            ++ [["Bar Sol"; "http://sol.example"; "Hi@Sol.example"];
                ["Old Cafe"; "http://old.example"; "N/A"]])%list
  ∧ run.2 = Ret tt
  ∧ output_file run.1
    = Some [["name"; "website"; "emails"];
            ["Bar Sol"; "http://sol.example"; "Hi@Sol.example"];
            ["Old Cafe"; "http://old.example"; "N/A"]]
  ∧ prior_row ∉ default [] (output_file run.1).
Proof.
  intros s0 run prior_row.
  split; [apply (bool_decide_unpack _); vm_compute; exact I|].
  split; [vm_compute; reflexivity|].
  split; [vm_compute; reflexivity|].
  split; [vm_compute; reflexivity|].
  split; [vm_compute; reflexivity|].
  apply (bool_decide_unpack _). vm_compute. exact I.
Qed.

(** * Further properties of the code *)

(** ** The store during a session *)

Lemma store_extends_refl (s s' : state) :
  csv_file s' = csv_file s → seen_places s' = seen_places s →
  total_extracted s' = total_extracted s → processed_count s' = processed_count s →
  store_extends s s' [].
Proof.
  intros Hf Hs Ht Hp. unfold store_extends. simpl.
  rewrite Hf, Hs, Ht, Hp, app_nil_r.
  repeat split; try lia.
  - constructor.
  - constructor.
  - intros r Hr. inversion Hr.
  - apply set_eq. intros x. rewrite elem_of_union, elem_of_empty. tauto.
Qed.

Lemma store_extends_trans (s s1 s2 : state) (n1 n2 : list (list string)) :
  store_extends s s1 n1 → store_extends s1 s2 n2 → store_extends s s2 (n1 ++ n2)%list.
Proof.
  intros (Hf1 & Hl1 & Hd1 & Hn1 & Hs1 & Ht1 & Hp1) (Hf2 & Hl2 & Hd2 & Hn2 & Hs2 & Ht2 & Hp2).
  unfold store_extends. rewrite fmap_app, length_app.
  split; [rewrite Hf2, Hf1, app_assoc; reflexivity|].
  split; [apply Forall_app; split; assumption|].
  split.
  { apply NoDup_app. split; [exact Hd1|]. split; [|exact Hd2].
    intros k Hk1 Hk2.
    apply list_elem_of_fmap in Hk2 as (r & -> & Hr).
    apply (Hn2 r Hr). rewrite Hs1. apply elem_of_union_r, elem_of_list_to_set. exact Hk1. }
  split.
  { intros r Hr. apply elem_of_app in Hr as [Hr|Hr]; [apply Hn1; exact Hr|].
    intros Hin. apply (Hn2 r Hr). rewrite Hs1. apply elem_of_union_l. exact Hin. }
  split.
  { rewrite Hs2, Hs1. apply set_eq. intros x.
    rewrite !elem_of_union, !elem_of_list_to_set, elem_of_app. tauto. }
  split; lia.
Qed.

(** The key cells of the row written for a record whose name and address
    are texts. *)
Lemma stored_key_row_of (d : gmap string value) (n a : string) :
  d !! "name" = Some (Some n) → d !! "address" = Some (Some a) →
  stored_key (row_of d) = (Some n, Some a).
Proof.
  intros Hn Ha. unfold stored_key, row_of, headers. simpl. rewrite Hn, Ha. reflexivity.
Qed.

Lemma extract_basic_info_key (c : card) (d : gmap string value) :
  extract_basic_info c = Some d →
  ∃ n a, d !! "name" = Some (Some n) ∧ d !! "address" = Some (Some a).
Proof.
  unfold extract_basic_info.
  generalize (list_to_map (M := gmap string value)
                ((λ field, (field, Some "N/A")) <$> headers)).
  intros base.
  destruct (name_element c); [|discriminate|discriminate].
  destruct (address_element c); [| |discriminate];
    (destruct (rating_element c); [| |discriminate];
     [destruct (reviews_element c); [| |discriminate] |]);
    intros [= <-]; eexists _, _;
    (split; [ repeat (rewrite lookup_insert_ne by discriminate); apply lookup_insert_eq
            | repeat (rewrite lookup_insert_ne by discriminate); apply lookup_insert_eq ]).
Qed.

Lemma extract_coords_other (url : string) (d : gmap string value) (k : string) :
  k ≠ "latitude" → k ≠ "longitude" → extract_coords url d !! k = d !! k.
Proof.
  intros H1 H2. unfold extract_coords.
  destruct (Py.split "@" url !! 1); [|reflexivity].
  destruct (take 2 (Py.split "," s) !! 0); [|reflexivity].
  destruct (take 2 (Py.split "," s) !! 1);
    repeat (rewrite lookup_insert_ne by congruence); reflexivity.
Qed.

Lemma extract_detailed_info_key (c : card) (d : gmap string value) (n a : string) :
  d !! "name" = Some (Some n) → d !! "address" = Some (Some a) →
  extract_detailed_info c d !! "name" = Some (Some n)
  ∧ ∃ a', extract_detailed_info c d !! "address" = Some (Some a').
Proof.
  intros Hn Ha. unfold extract_detailed_info.
  rewrite !extract_coords_other by discriminate.
  destruct (pane_address c), (pane_phone c), (pane_website c);
    (split; [ repeat (rewrite lookup_insert_ne by discriminate); exact Hn
            | eexists; repeat (rewrite lookup_insert_ne by discriminate);
              first [ apply lookup_insert_eq | exact Ha ] ]).
Qed.

Lemma extract_place_details_keyed (c : card) (s : state) (d : gmap string value) :
  extract_place_details c s = (s, Ret (Some d)) →
  ∃ n a, d !! "name" = Some (Some n) ∧ d !! "address" = Some (Some a).
Proof.
  unfold extract_place_details.
  destruct (extract_basic_info c) as [d0|] eqn:Hb; [|discriminate].
  destruct (extract_basic_info_key c d0 Hb) as (n & a & Hn & Ha).
  unfold getitem. rewrite Hn, Ha. unfold bind, gets.
  destruct (decide _); [discriminate|].
  destruct (click c); intros [= <-].
  - destruct (extract_detailed_info_key c d0 n a Hn Ha) as (Hn' & a' & Ha'). eauto.
  - eauto.
Qed.

Lemma save_place_store (d : gmap string value) (s : state) (n a : string) :
  dom d = header_set →
  d !! "name" = Some (Some n) → d !! "address" = Some (Some a) →
  ∃ s' b new, save_place d s = (s', Ret b)
              ∧ length new = (if b then 1 else 0)
              ∧ store_extends s
                  (if b then set_processed_count (processed_count s' + 1) s' else s') new.
Proof.
  intros Hd Hn Ha.
  destruct (decide ((Some n, Some a) ∈ seen_places s)) as [Hin|Hnin].
  - exists s, false, []. rewrite (save_place_seen d _ _ Hn Ha s Hin).
    split; [reflexivity|]. split; [reflexivity|]. apply store_extends_refl; reflexivity.
  - eexists _, true, [row_of d].
    rewrite (save_place_fresh d _ _ Hn Ha s _
               (dict_to_list_headers d ltac:(rewrite Hd; reflexivity)) Hnin).
    split; [reflexivity|]. split; [reflexivity|].
    unfold store_extends. simpl. rewrite (stored_key_row_of d n a Hn Ha).
    split; [reflexivity|]. split; [repeat constructor|].
    split; [repeat constructor; apply not_elem_of_nil|].
    split; [intros r Hr; apply list_elem_of_singleton in Hr as ->;
            rewrite (stored_key_row_of d n a Hn Ha); exact Hnin|].
    split; [|split; reflexivity].
    apply set_eq. intros x. rewrite !elem_of_union, elem_of_singleton, elem_of_empty. tauto.
Qed.

Lemma process_card_store (c : card) (s : state) :
  ∃ s' new, process_card c s = (s', Ret tt) ∧ store_extends s s' new.
Proof.
  unfold process_card, bind, modify.
  set (s0 := set_dispatched (dispatched s ++ [c])%list s).
  assert (H0 : store_extends s s0 []) by (apply store_extends_refl; reflexivity).
  destruct (extract_place_details_total c s0) as (r & Hr & Hdom). rewrite Hr.
  destruct r as [d|]; [|exists s0, []; split; [reflexivity | exact H0]].
  destruct (extract_place_details_keyed c s0 d Hr) as (n & a & Hn & Ha).
  destruct (save_place_store d s0 n a (Hdom d eq_refl) Hn Ha) as (s1 & b & new & -> & _ & Hext).
  destruct b; eexists _, new; (split; [reflexivity|]);
    apply (store_extends_trans s s0 _ [] new H0 Hext).
Qed.

Lemma for_each_store (cs : list card) (s : state) :
  ∃ s' new, for_each cs process_card s = (s', Ret tt) ∧ store_extends s s' new.
Proof.
  revert s. induction cs as [|c cs IH]; intros s; simpl.
  - exists s, []. split; [reflexivity|]. apply store_extends_refl; reflexivity.
  - unfold bind. destruct (process_card_store c s) as (s1 & n1 & -> & H1).
    destruct (IH s1) as (s2 & n2 & -> & H2).
    exists s2, (n1 ++ n2)%list. split; [reflexivity|].
    exact (store_extends_trans _ _ _ _ _ H1 H2).
Qed.

Lemma scan_pass_store (cards : list card) (s : state) :
  ∃ new, store_extends s (scan_pass cards s).1 new.
Proof.
  unfold scan_pass, bind, gets.
  destruct (drop (last_processed_index s) cards) as [|c cs].
  - exists []. apply store_extends_refl; reflexivity.
  - destruct (for_each_store (c :: cs) s) as (s1 & new & -> & H1).
    exists new. unfold modify. simpl.
    replace new with (new ++ [])%list by apply app_nil_r.
    eapply store_extends_trans; [exact H1|]. apply store_extends_refl; reflexivity.
Qed.

Lemma height_check_store (w : world) (s : state) :
  store_extends s (height_check w s).1 [].
Proof.
  rewrite height_check_unfold.
  destruct (scroll_height w) as [nh|]; [|apply store_extends_refl; reflexivity].
  destruct (decide _); [|apply store_extends_refl; reflexivity].
  destruct (scroll_height_after_wait w) as [uh|]; [|apply store_extends_refl; reflexivity].
  destruct (decide _); apply store_extends_refl; reflexivity.
Qed.

Lemma iteration_store (w : world) (s : state) :
  ∃ new, store_extends s (iteration w s).1 new.
Proof.
  unfold iteration. rewrite try_body_unfold.
  destruct (feed w) as [[|]|]; simpl;
    try (exists []; apply store_extends_refl; reflexivity).
  destruct (find_elements_fault w); simpl;
    [exists []; apply store_extends_refl; reflexivity|].
  destruct (scan_pass_store (rendered w) s) as (new & Hnew).
  set (s1 := (scan_pass (rendered w) s).1) in *.
  assert (Hr : ∀ k, store_extends s (set_retries k s1) new).
  { intros k. replace new with (new ++ [])%list by apply app_nil_r.
    eapply store_extends_trans; [exact Hnew|]. apply store_extends_refl; reflexivity. }
  exists new.
  destruct (scroll_top w); simpl; [|apply Hr].
  destruct (scroll_to w _); simpl; [|apply Hr].
  pose proof (height_check_store w s1) as Hh.
  assert (Hs2 : store_extends s (height_check w s1).1 new).
  { replace new with (new ++ [])%list by apply app_nil_r.
    eapply store_extends_trans; [exact Hnew | exact Hh]. }
  destruct (height_check w s1) as [s2 [ [] | e ]]; simpl in *; [exact Hs2|].
  replace new with (new ++ [])%list by apply app_nil_r.
  eapply store_extends_trans; [exact Hs2|]. apply store_extends_refl; reflexivity.
Qed.

Lemma loop_store (ws : list world) (s : state) :
  ∃ new, store_extends s (loop ws s).1 new.
Proof.
  revert s. induction ws as [|w ws IH]; intros s; simpl.
  - exists []. destruct (loop_condition s); apply store_extends_refl; reflexivity.
  - destruct (loop_condition s); [|exists []; apply store_extends_refl; reflexivity].
    destruct (iteration_store w s) as (n1 & H1).
    destruct (iteration w s) as [s' [|]]; simpl in *; [exists n1; exact H1|].
    destruct (IH s') as (n2 & H2). exists (n1 ++ n2)%list.
    exact (store_extends_trans _ _ _ _ _ H1 H2).
Qed.

(** X1. The tally of a session. Whatever the driver answers, when
    [monitor_scrolling] stops the file holds its former rows followed by
    the rows of this session, and the number of those rows is the logged
    tally [processed_count], the growth of [total_extracted] and the
    growth of [seen_places]. *)
Theorem session_tally (ws : list world) (s : state) :
  let s' := (monitor_scrolling ws s).1 in
  ∃ new,
    default [] (csv_file s') = (default [] (csv_file s) ++ new)%list
    ∧ processed_count s' = length new
    ∧ total_extracted s' = total_extracted s + length new
    ∧ size (seen_places s') = size (seen_places s) + length new.
Proof.
  intros s'. subst s'. unfold monitor_scrolling.
  set (s0 := set_last_height 0 _).
  destruct (loop_store ws s0) as (new & Hf & _ & Hd & Hn & Hs & Ht & Hp).
  exists new. split; [exact Hf|]. split; [exact Hp|]. split; [exact Ht|].
  rewrite Hs. change (seen_places s0) with (seen_places s) in *.
  rewrite size_union.
  - rewrite size_list_to_set by exact Hd. rewrite length_fmap. reflexivity.
  - intros k Hk1 Hk2. apply elem_of_list_to_set, list_elem_of_fmap in Hk2 as (r & -> & Hr).
    exact (Hn r Hr Hk1).
Qed.

(** X2. No place is written twice. The rows that a session appends carry
    pairwise different [(name, address)] cells, none of them a key that
    was in [seen_places] when the session began, and [seen_places] ends as
    the former set together with exactly those keys. *)
Theorem session_rows_distinct (ws : list world) (s : state) :
  let s' := (monitor_scrolling ws s).1 in
  ∃ new,
    default [] (csv_file s') = (default [] (csv_file s) ++ new)%list
    ∧ NoDup (stored_key <$> new)
    ∧ (∀ r, r ∈ new → stored_key r ∉ seen_places s)
    ∧ seen_places s' = seen_places s ∪ list_to_set (stored_key <$> new).
Proof.
  intros s'. subst s'. unfold monitor_scrolling.
  set (s0 := set_last_height 0 _).
  destruct (loop_store ws s0) as (new & Hf & _ & Hd & Hn & Hs & _).
  exists new. auto.
Qed.







Lemma init_before_seen_places_witness :
  init (Some [headers; ["Cafe Luna"; "4.5"; "120"; "1 Main St"]]) = Raise AttributeError
  ∧ init (Some [headers]) = Ret fresh.
Proof.
  destruct (init_before_seen_places headers ["Cafe Luna"; "4.5"; "120"; "1 Main St"] [])
    as (H1 & H2 & _).
  - discriminate.
  - split; [exact H1 | exact H2].
Defined.

(** ** Reading one card *)

(** X7. Whatever a card shows, reading it neither raises nor touches the
    session, and a record that comes back has exactly the nine header
    fields with a text, never [None], as name and as address; so
    [save_place] can raise neither [KeyError] nor [ValueError] on it. *)
Theorem extract_place_details_record (c : card) (s : state) :
  ∃ r, extract_place_details c s = (s, Ret r)
       ∧ ∀ d, r = Some d →
           dom d = header_set
           ∧ (∃ n a, d !! "name" = Some (Some n) ∧ d !! "address" = Some (Some a))
           ∧ ∃ b s', save_place d s = (s', Ret b).
Proof.
  destruct (extract_place_details_total c s) as (r & Hr & Hdom).
  exists r. split; [exact Hr|]. intros d ->.
  split; [apply Hdom; reflexivity|].
  split; [exact (extract_place_details_keyed c s d Hr)|].
  destruct (save_place_total d s (Hdom d eq_refl)) as (s' & b & Hs & _). eauto.
Qed.

Lemma extract_basic_info_fields (c : card) (d : gmap string value) :
  extract_basic_info c = Some d →
  ∃ n, name_element c = Element n
       ∧ d !! "name" = Some (Some (Py.strip n))
       ∧ d !! "address" =
           Some (Some (match address_element c with
                       | Element a => Py.strip a
                       | _ => "N/A"
                       end)).
Proof.
  unfold extract_basic_info.
  generalize (list_to_map (M := gmap string value)
                ((λ field, (field, Some "N/A")) <$> headers)).
  intros base.
  destruct (name_element c) as [n| |]; [|discriminate|discriminate].
  destruct (address_element c); [| |discriminate];
    (destruct (rating_element c); [| |discriminate];
     [destruct (reviews_element c); [| |discriminate] |]);
    intros [= <-]; exists n; (split; [reflexivity|]);
    (split; [ repeat (rewrite lookup_insert_ne by discriminate); apply lookup_insert_eq
            | repeat (rewrite lookup_insert_ne by discriminate); apply lookup_insert_eq ]).
Qed.

(** X8. A card is passed over, with nothing written and no count changed,
    when its name cannot be read, and when the name and the address that
    the card itself shows ([N/A] for a card without an address) form a key
    already seen. *)
Theorem process_card_skips (c : card) (s : state) :
  ((∀ n, name_element c ≠ Element n) ∨
   (∃ n, name_element c = Element n
         ∧ (Some (Py.strip n),
            Some (match address_element c with
                  | Element a => Py.strip a
                  | _ => "N/A"
                  end)) ∈ seen_places s)) →
  process_card c s = (set_dispatched (dispatched s ++ [c])%list s, Ret tt).
Proof.
  intros Hskip. unfold process_card, bind, modify.
  set (s0 := set_dispatched _ s).
  assert (Hnone : extract_place_details c s0 = (s0, Ret None)); [|rewrite Hnone; reflexivity].
  unfold extract_place_details.
  destruct (extract_basic_info c) as [d|] eqn:Hb; [|reflexivity].
  destruct (extract_basic_info_fields c d Hb) as (n & Hn & Hdn & Hda).
  destruct Hskip as [Hno|(n' & Hn' & Hin)]; [destruct (Hno n Hn)|].
  rewrite Hn in Hn'. injection Hn' as <-.
  unfold getitem. rewrite Hdn, Hda. unfold bind, gets.
  destruct (decide _) as [_|Hnin]; [reflexivity|]. destruct (Hnin Hin).
Qed.

Lemma process_card_skips_witness :
  let seen_card := sample_card "P0" "a0" in
  let s := set_seen_places {[ (Some "P0", Some "a0") ]} fresh in
  process_card seen_card s = (set_dispatched [seen_card] s, Ret tt).
Proof.
  intros seen_card s.
  apply (process_card_skips seen_card s).
  right. exists "P0". split; [reflexivity|].
  apply (bool_decide_unpack _). vm_compute. exact I.
Defined.

(** X9. The detail pane fills its three fields independently: each of
    [address], [phone] and [website] takes what the pane shows and keeps
    its former value when the pane has no such element; the fields that
    are not detail fields (the name among them) are never changed. *)
Theorem extract_detailed_info_fields (c : card) (d : gmap string value) :
  extract_detailed_info c d !! "address" =
    match pane_address c with
    | Some text => Some (Some (Py.strip text))
    | None => d !! "address"
    end
  ∧ extract_detailed_info c d !! "phone" =
      match pane_phone c with
      | Some text => Some (Some (Py.strip text))
      | None => d !! "phone"
      end
  ∧ extract_detailed_info c d !! "website" =
      match pane_website c with
      | Some href => Some href
      | None => d !! "website"
      end
  ∧ ∀ field, field ∉ detail_fields →
             extract_detailed_info c d !! field = d !! field.
Proof.
  unfold extract_detailed_info.
  split; [|split; [|split]].
  - rewrite extract_coords_other by discriminate.
    destruct (pane_address c), (pane_phone c), (pane_website c);
      repeat (rewrite lookup_insert_ne by discriminate);
      first [ apply lookup_insert_eq | reflexivity ].
  - rewrite extract_coords_other by discriminate.
    destruct (pane_address c), (pane_phone c), (pane_website c);
      repeat (rewrite lookup_insert_ne by discriminate);
      first [ apply lookup_insert_eq | reflexivity ].
  - rewrite extract_coords_other by discriminate.
    destruct (pane_address c), (pane_phone c), (pane_website c);
      repeat (rewrite lookup_insert_ne by discriminate);
      first [ apply lookup_insert_eq | reflexivity ].
  - intros field Hf. unfold detail_fields in Hf.
    rewrite !not_elem_of_cons in Hf. destruct Hf as (H1 & H2 & H3 & H4 & H5 & _).
    rewrite extract_coords_other by assumption.
    destruct (pane_address c), (pane_phone c), (pane_website c);
      repeat (rewrite lookup_insert_ne by congruence); reflexivity.
Qed.

Lemma extract_detailed_info_fields_witness :
  extract_detailed_info (sample_card "P0" "a0") sample_place !! "name"
    = Some (Some "Cafe Luna").
Proof.
  destruct (extract_detailed_info_fields (sample_card "P0" "a0") sample_place)
    as (_ & _ & _ & Hother).
  rewrite Hother; [reflexivity|].
  apply (bool_decide_unpack _). vm_compute. exact I.
Defined.

(** ** Splitting at a single character *)

Lemma append_cons (x : ascii) (a b : string) : String x a +:+ b = String x (a +:+ b).
Proof. reflexivity. Qed.

Lemma append_assoc (a b c : string) : (a +:+ b) +:+ c = a +:+ (b +:+ c).
Proof.
  induction a as [|x a IH]; [reflexivity|].
  rewrite !append_cons, IH. reflexivity.
Qed.

Lemma append_empty_r (a : string) : a +:+ EmptyString = a.
Proof.
  induction a as [|x a IH]; [reflexivity|].
  rewrite append_cons, IH. reflexivity.
Qed.

(** Characters other than the separator are collected into the piece. *)
Lemma split_go_char_app (c : ascii) (cur a rest : string) :
  Py.contains c a = false →
  Py.split_go (String c EmptyString) 0 cur (a +:+ rest)
    = Py.split_go (String c EmptyString) 0 (cur +:+ a) rest.
Proof.
  revert cur. induction a as [|x a IH]; intros cur Hc.
  - rewrite append_empty_r. reflexivity.
  - rewrite append_cons. simpl in Hc. cbn [Py.split_go Py.startswith].
    destruct (decide (x = c)) as [|Hne]; [discriminate|].
    destruct (decide (c = x)) as [|_]; [congruence|].
    rewrite IH by exact Hc. rewrite append_assoc. reflexivity.
Qed.

(** The separator closes the piece. *)
Lemma split_go_char_sep (c : ascii) (cur rest : string) :
  Py.split_go (String c EmptyString) 0 cur (String c rest)
    = cur :: Py.split_go (String c EmptyString) 0 EmptyString rest.
Proof.
  simpl. destruct (decide (c = c)) as [_|Hne]; [reflexivity | destruct (Hne eq_refl)].
Qed.

(** The piece under collection is a prefix of the first piece. *)
Lemma split_go_char_cur (c : ascii) (cur s : string) :
  Py.split_go (String c EmptyString) 0 cur s
    = match Py.split_go (String c EmptyString) 0 EmptyString s with
      | first :: others => (cur +:+ first) :: others
      | [] => []
      end.
Proof.
  revert cur. induction s as [|x s IH]; intros cur; cbn [Py.split_go Py.startswith].
  - rewrite append_empty_r. reflexivity.
  - destruct (decide (c = x)) as [->|Hne].
    + rewrite append_empty_r. reflexivity.
    + change (EmptyString +:+ String x EmptyString) with (String x EmptyString).
      rewrite (IH (cur +:+ String x EmptyString)), (IH (String x EmptyString)).
      destruct (Py.split_go _ 0 EmptyString s); [reflexivity|].
      rewrite append_assoc. reflexivity.
Qed.

Lemma split_char_none (c : ascii) (s : string) :
  Py.contains c s = false → Py.split (String c EmptyString) s = [s].
Proof.
  intros Hc. unfold Py.split.
  rewrite <- (append_empty_r s) at 1.
  rewrite (split_go_char_app c EmptyString s EmptyString Hc). reflexivity.
Qed.

(** [a + c + rest] splits into [a] and the pieces of [rest] when [c] does
    not occur in [a]. *)
Lemma split_char_cons (c : ascii) (a rest : string) :
  Py.contains c a = false →
  Py.split (String c EmptyString) (a +:+ String c rest)
    = a :: Py.split (String c EmptyString) rest.
Proof.
  intros Hc. unfold Py.split.
  rewrite (split_go_char_app c EmptyString a _ Hc), split_go_char_sep. reflexivity.
Qed.

Lemma contains_split (c : ascii) (s : string) :
  Py.contains c s = true →
  ∃ a b, s = a +:+ String c b ∧ Py.contains c a = false.
Proof.
  induction s as [|x s IH]; simpl; [discriminate|].
  destruct (decide (x = c)) as [->|Hne].
  - intros _. exists EmptyString, s. split; reflexivity.
  - intros Hc. destruct (IH Hc) as (a & b & -> & Ha).
    exists (String x a), b. split; [reflexivity|]. simpl.
    destruct (decide (x = c)); [contradiction | exact Ha].
Qed.

Lemma split_go_nonempty (sep : string) (skip : nat) (cur s : string) :
  Py.split_go sep skip cur s ≠ [].
Proof.
  revert skip cur. induction s as [|x s IH]; intros skip cur; simpl; [discriminate|].
  destruct skip; [|apply IH].
  destruct (Py.startswith sep (String x s)); [discriminate | apply IH].
Qed.

(** [s.split(c)[1]] exists exactly when [c] occurs in [s]. *)
Lemma split_char_second (c : ascii) (s : string) :
  Py.split (String c EmptyString) s !! 1 = None ↔ Py.contains c s = false.
Proof.
  split.
  - intros Hnone. destruct (Py.contains c s) eqn:Hc; [|reflexivity].
    destruct (contains_split c s Hc) as (a & b & -> & Ha).
    rewrite (split_char_cons c a b Ha) in Hnone. simpl in Hnone.
    unfold Py.split in Hnone.
    pose proof (split_go_nonempty (String c EmptyString) 0 EmptyString b) as Hne.
    destruct (Py.split_go _ 0 EmptyString b); [contradiction | discriminate].
  - intros Hc. rewrite (split_char_none c s Hc). reflexivity.
Qed.

(** The first piece of [a + s] is [a] followed by the first piece of [s]
    when [c] does not occur in [a]. *)
Lemma split_char_first (c : ascii) (a s : string) :
  Py.contains c a = false →
  ∃ first others others',
    Py.split (String c EmptyString) s = first :: others
    ∧ Py.split (String c EmptyString) (a +:+ s) = (a +:+ first) :: others'.
Proof.
  intros Hc. unfold Py.split.
  rewrite (split_go_char_app c EmptyString a s Hc).
  change (EmptyString +:+ a) with a.
  rewrite (split_go_char_cur c a s).
  pose proof (split_go_nonempty (String c EmptyString) 0 EmptyString s) as Hne.
  destruct (Py.split_go _ 0 EmptyString s) as [|first others]; [contradiction|].
  exists first, others, others. split; reflexivity.
Qed.

(** ** The coordinates in the address of the page *)

(** X10. From an address of the form [...@lat,lng] or [...@lat,lng,...], with
    no [@] before the marker and none in the two numbers, the two fields
    are the texts between the marker and the commas. *)
Theorem extract_coords_parses (pre lat lng tail : string) (d : gmap string value) :
  Py.contains "@" pre = false →
  Py.contains "@" lat = false → Py.contains "," lat = false →
  Py.contains "@" lng = false → Py.contains "," lng = false →
  tail = EmptyString ∨ (∃ rest, tail = String "," rest) →
  extract_coords (pre +:+ String "@" (lat +:+ String "," (lng +:+ tail))) d
    = <["longitude" := Some lng]> (<["latitude" := Some lat]> d).
Proof.
  intros Hpre Hlat1 Hlat2 Hlng1 Hlng2 Htail. unfold extract_coords.
  rewrite (split_char_cons "@" pre _ Hpre).
  (* the piece after the marker: the two numbers and what follows them up
     to the next marker *)
  assert (Hat : Py.contains "@" (lat +:+ String "," lng) = false).
  { clear -Hlat1 Hlng1. induction lat as [|x lat IH].
    - simpl. exact Hlng1.
    - rewrite append_cons. simpl in *. destruct (decide (x = "@"%char)); [discriminate|].
      apply IH. exact Hlat1. }
  replace (lat +:+ String "," (lng +:+ tail)) with ((lat +:+ String "," lng) +:+ tail)
    by (rewrite append_assoc; reflexivity).
  destruct (split_char_first "@" (lat +:+ String "," lng) tail Hat)
    as (first & others & others' & Htl & ->).
  change ((pre :: ((lat +:+ String "," lng) +:+ first) :: others') !! 1)
    with (Some ((lat +:+ String "," lng) +:+ first)).
  assert (Hfirst : first = EmptyString ∨ ∃ rest', first = String "," rest').
  { destruct Htail as [->|(rest & ->)].
    - injection Htl as <- _. left. reflexivity.
    - unfold Py.split in Htl. cbn [Py.split_go Py.startswith] in Htl.
      destruct (decide _) as [Heq|_]; [discriminate Heq|].
      rewrite split_go_char_cur in Htl.
      destruct (Py.split_go "@" 0 EmptyString rest) as [|f o]; [discriminate|].
      injection Htl as <- _. right. eauto. }
  assert (Hcoords : take 2 (Py.split "," ((lat +:+ String "," lng) +:+ first)) = [lat; lng]).
  { rewrite append_assoc. rewrite append_cons.
    rewrite (split_char_cons "," lat _ Hlat2).
    destruct Hfirst as [->|(rest' & ->)].
    - rewrite append_empty_r, (split_char_none "," lng Hlng2). reflexivity.
    - rewrite (split_char_cons "," lng _ Hlng2).
      destruct (Py.split "," rest'); reflexivity. }
  cbv beta iota zeta. rewrite Hcoords. reflexivity.
Qed.

Lemma extract_coords_parses_witness :
  extract_coords "https://www.google.com/maps/place/Cafe/@12.9716,77.5946,17z/data=x" ∅
    = <["longitude" := Some "77.5946"]> (<["latitude" := Some "12.9716"]> ∅).
Proof.
  apply (extract_coords_parses "https://www.google.com/maps/place/Cafe/"
           "12.9716" "77.5946" ",17z/data=x" ∅); try reflexivity.
  right. eexists. reflexivity.
Defined.

(** X11. An address without the marker [@] leaves the record as it is; an
    address with the marker but no comma after it sets the latitude to
    all that follows the marker and leaves the longitude as it was. *)
Theorem extract_coords_edges (url pre rest : string) (d : gmap string value) :
  (Py.contains "@" url = false → extract_coords url d = d)
  ∧ (Py.contains "@" pre = false → Py.contains "@" rest = false →
     Py.contains "," rest = false →
     extract_coords (pre +:+ String "@" rest) d = <["latitude" := Some rest]> d).
Proof.
  split.
  - intros Hc. unfold extract_coords.
    rewrite (proj2 (split_char_second "@" url) Hc). reflexivity.
  - intros Hpre Hr1 Hr2. unfold extract_coords.
    rewrite (split_char_cons "@" pre _ Hpre), (split_char_none "@" rest Hr1).
    change ([pre; rest] !! 1) with (Some rest). cbv beta iota zeta.
    rewrite (split_char_none "," rest Hr2). reflexivity.
Qed.

Lemma extract_coords_edges_witness :
  extract_coords "https://www.google.com/maps/search/cafes" sample_place = sample_place
  ∧ extract_coords "https://maps.example/@12.9716" ∅ = <["latitude" := Some "12.9716"]> ∅.
Proof.
  destruct (extract_coords_edges "https://www.google.com/maps/search/cafes"
              "https://maps.example/" "12.9716" sample_place) as [H1 _].
  destruct (extract_coords_edges "https://www.google.com/maps/search/cafes"
              "https://maps.example/" "12.9716" ∅) as [_ H2].
  split; [apply H1; reflexivity | apply H2; reflexivity].
Defined.

(** ** Edges of the scroll loop *)

(** X12. When the feed shows no more cards than the cursor has passed (also
    when it shows fewer, after a re-render), the scan pass opens no card,
    writes nothing, adds one to [no_new_results_count], and does not lower
    the cursor to the number of cards shown. *)
Theorem scan_pass_nothing_new (cards : list card) (s : state) :
  length cards ≤ last_processed_index s →
  scan_pass cards s
    = (set_no_new_results_count (no_new_results_count s + 1) s, Ret tt).
Proof.
  intros Hle. unfold scan_pass, bind, gets.
  rewrite drop_ge by exact Hle. reflexivity.
Qed.

Lemma scan_pass_nothing_new_witness :
  let s8 := (scan_pass cards8 fresh).1 in
  let s := (scan_pass (take 3 cards8) s8).1 in
  last_processed_index s = 8 ∧ dispatched s = dispatched s8
  ∧ csv_file s = csv_file s8 ∧ no_new_results_count s = 1.
Proof.
  intros s8 s. subst s.
  rewrite (scan_pass_nothing_new (take 3 cards8) s8).
  - vm_compute. auto.
  - vm_compute. lia.
Defined.

Lemma set_retries_same (s : state) : set_retries (retries s) s = s.
Proof. destruct s. reflexivity. Qed.

Lemma loop_feed_raises (ws : list world) (s : state) :
  Forall (λ w, ∃ e, feed w = Raise e) ws →
  retries s ≤ MAX_RETRIES →
  no_new_results_count s < 3 →
  MAX_RETRIES ≤ retries s + length ws →
  loop ws s = (set_retries MAX_RETRIES s, Done).
Proof.
  intros Hws. revert s. induction Hws as [|w ws [e He] _ IH]; intros s Hr Hn Hlen.
  - simpl in Hlen. assert (Heq : retries s = MAX_RETRIES) by lia.
    rewrite <- Heq, set_retries_same. simpl. unfold loop_condition.
    rewrite (bool_decide_eq_false_2 (retries s < MAX_RETRIES)) by lia. reflexivity.
  - cbn [loop]. unfold loop_condition.
    destruct (decide (retries s < MAX_RETRIES)) as [Hlt|Hge].
    + rewrite (bool_decide_eq_true_2 _ Hlt), (bool_decide_eq_true_2 _ Hn). simpl.
      unfold iteration. rewrite try_body_unfold, He. simpl.
      rewrite IH; simpl in *; try lia. reflexivity.
    + rewrite (bool_decide_eq_false_2 _ Hge). simpl.
      assert (Heq : retries s = MAX_RETRIES) by lia.
      rewrite <- Heq, set_retries_same. reflexivity.
Qed.

(** X13. When looking up the results panel raises in each of the first three
    iterations, the session ends after the third as an ordinary [Done]:
    no card is read, the store, [seen_places] and the cursor are as they
    were, and only [retries] has moved, to [MAX_RETRIES]. *)
Theorem monitor_scrolling_feed_raises (ws : list world) (s : state) :
  Forall (λ w, ∃ e, feed w = Raise e) (take MAX_RETRIES ws) →
  MAX_RETRIES ≤ length ws →
  monitor_scrolling ws s
    = (State (csv_file s) (seen_places s) (total_extracted s) (last_processed_index s)
             0%Z MAX_RETRIES 0 0 (dispatched s),
       Done).
Proof.
  intros Hws Hlen. unfold monitor_scrolling.
  rewrite <- (take_drop MAX_RETRIES ws) at 1. rewrite loop_app.
  rewrite (loop_feed_raises (take MAX_RETRIES ws) _ Hws); simpl;
    rewrite ?length_take; unfold MAX_RETRIES in *; try lia.
  reflexivity.
Qed.

Lemma monitor_scrolling_feed_raises_witness :
  let down := World (Raise WebDriverException) cards8 None (Ret 0%Z) (λ _, Ret tt)
                    (Ret 0%Z) (Ret 0%Z) in
  monitor_scrolling [down; down; down; quiet cards8 0 0] fresh
    = (State (Some [headers]) ∅ 0 0 0%Z MAX_RETRIES 0 0 [], Done).
Proof.
  intros down.
  apply (monitor_scrolling_feed_raises [down; down; down; quiet cards8 0 0] fresh).
  - repeat constructor; eexists; reflexivity.
  - simpl. unfold MAX_RETRIES. lia.
Defined.

(** ** The e-mail pass: which matches are kept *)

Lemma existsb_none {A} (f : A → bool) (l : list A) :
  negb (existsb f l) = true ↔ Forall (λ x, f x = false) l.
Proof.
  induction l as [|x l IH]; simpl.
  - split; [constructor | reflexivity].
  - rewrite Forall_cons. destruct (f x); simpl.
    + split; [discriminate | intros [H _]; discriminate H].
    + rewrite IH. tauto.
Qed.

Lemma valid_emails_raises (found_emails : list string) :
  (∃ email, email ∈ found_emails ∧ Py.contains "@" email = false) →
  valid_emails found_emails = Raise IndexError.
Proof.
  intros (email & Hin & Hc). induction found_emails as [|e rest IH]; [inversion Hin|].
  simpl. destruct (Py.split "@" e !! 1) as [domain|] eqn:Hd; [|reflexivity].
  apply elem_of_cons in Hin as [->|Hin].
  - apply split_char_second in Hc. congruence.
  - rewrite (IH Hin). reflexivity.
Qed.

(** X14. The filter of [scrape_email_from_website]. When every match holds an
    [@], the matches kept are, in their order, exactly those whose part
    after the first [@] holds a dot and whose lower-cased form ends in
    none of [.png], [.jpg], [.jpeg], [.gif]. When one match holds no [@],
    the indexing raises and the page yields no e-mail at all, the set of
    seen e-mails staying as it was. *)
Theorem valid_emails_filter (found_emails : list string) :
  ((∀ email, email ∈ found_emails → Py.contains "@" email = true) →
   ∃ valid,
     valid_emails found_emails = Ret valid
     ∧ valid `sublist_of` found_emails
     ∧ ∀ email,
         email ∈ valid ↔
           email ∈ found_emails
           ∧ (∃ domain, Py.split "@" email !! 1 = Some domain
                        ∧ Py.contains "." domain = true)
           ∧ Forall (λ suffix, Py.endswith suffix (Py.lower email) = false)
                    image_suffixes)
  ∧ ((∃ email, email ∈ found_emails ∧ Py.contains "@" email = false) →
     valid_emails found_emails = Raise IndexError
     ∧ ∀ (fetch : fetcher) (website : string) (seen : gset string),
         fetch website = Ret found_emails →
         scrape_email_from_website fetch website seen = ([], seen)).
Proof.
  split.
  - induction found_emails as [|e rest IH]; intros Hall.
    + exists []. split; [reflexivity|]. split; [constructor|].
      intros email. split; [intros H; inversion H | intros [H _]; inversion H].
    + destruct IH as (valid & Hv & Hsub & Hiff).
      { intros email Hin. apply Hall. right. exact Hin. }
      assert (He : Py.contains "@" e = true) by (apply Hall; left).
      cbn [valid_emails]. destruct (Py.split "@" e !! 1) as [domain|] eqn:Hd.
      2:{ apply split_char_second in Hd. congruence. }
      rewrite Hv.
      destruct (Py.contains "." domain
                && negb (existsb (λ suffix, Py.endswith suffix (Py.lower e)) image_suffixes))
        eqn:Hkeep.
      * apply andb_true_iff in Hkeep as [Hdot Himg]. apply existsb_none in Himg.
        exists (e :: valid). split; [reflexivity|].
        split; [constructor; exact Hsub|].
        intros email. rewrite !elem_of_cons, Hiff. split.
        -- intros [->|(Hin & Hdom & Hsuf)]; [|auto]. split; [auto|]. split; [eauto | exact Himg].
        -- intros ([->|Hin] & Hdom & Hsuf); auto.
      * exists valid. split; [reflexivity|].
        split; [apply sublist_cons; exact Hsub|].
        intros email. rewrite elem_of_cons, Hiff. split.
        -- intros (Hin & Hdom & Hsuf). auto.
        -- intros ([->|Hin] & (domain' & Hd' & Hdot) & Hsuf); [|eauto].
           exfalso. rewrite Hd in Hd'. injection Hd' as <-.
           apply existsb_none in Hsuf. rewrite Hdot, Hsuf in Hkeep. discriminate.
  - intros Hbad. pose proof (valid_emails_raises found_emails Hbad) as Hr.
    split; [exact Hr|].
    intros fetch website seen Hf. unfold scrape_email_from_website.
    rewrite Hf, Hr. reflexivity.
Qed.

Lemma valid_emails_filter_witness :
  valid_emails ["info@cafe.example"; "logo@2x.PNG"; "user@localhost"; "Info@Cafe.example"]
    = Ret ["info@cafe.example"; "Info@Cafe.example"]
  ∧ valid_emails ["info@cafe.example"; "no-marker"] = Raise IndexError.
Proof.
  destruct (valid_emails_filter
              ["info@cafe.example"; "logo@2x.PNG"; "user@localhost"; "Info@Cafe.example"])
    as [Hkeep _].
  destruct (valid_emails_filter ["info@cafe.example"; "no-marker"]) as [_ Hraise].
  split.
  - destruct Hkeep as (valid & Hv & _).
    + intros email Hin.
      repeat (apply elem_of_cons in Hin as [->|Hin]; [reflexivity|]). inversion Hin.
    + reflexivity.
  - apply Hraise. exists "no-marker". split; [|reflexivity].
    right. left.
Defined.

(** ** The e-mail pass: the set of seen e-mails *)

Lemma process_emails_all_seen (emails : list string) (seen : gset string) :
  (∀ email, email ∈ emails → normalize_email email ∈ seen) →
  process_emails emails seen = ([], seen).
Proof.
  induction emails as [|e rest IH]; intros Hall; [reflexivity|].
  cbn [process_emails]. unfold is_unique_email.
  destruct (decide (normalize_email e ∈ seen)) as [_|Hnin].
  - rewrite IH; [reflexivity|]. intros email Hin. apply Hall. right. exact Hin.
  - destruct Hnin. apply Hall. left.
Qed.

Lemma process_emails_sublist (emails : list string) (seen : gset string) :
  (process_emails emails seen).1 `sublist_of` emails.
Proof.
  revert seen. induction emails as [|e rest IH]; intros seen; [constructor|].
  cbn [process_emails]. destruct (is_unique_email e seen) as [u seen1].
  specialize (IH seen1). destruct (process_emails rest seen1) as [out seen2].
  simpl in *. destruct u; [constructor | apply sublist_cons]; exact IH.
Qed.

(** X15. The e-mails kept are candidates, in their order; the set of seen
    e-mails only grows; and handing the same candidates over a second time
    keeps none of them and leaves the set as it is. *)
Theorem process_emails_again (emails : list string) (seen : gset string) :
  let first := process_emails emails seen in
  first.1 `sublist_of` emails
  ∧ seen ⊆ first.2
  ∧ process_emails emails first.2 = ([], first.2).
Proof.
  intros first. subst first. split; [apply process_emails_sublist|]. split.
  - rewrite process_emails_seen. apply union_subseteq_l.
  - apply process_emails_all_seen. intros email Hin.
    rewrite process_emails_seen. apply elem_of_union_r, elem_of_list_to_set.
    apply list_elem_of_fmap. eauto.
Qed.

Lemma foldl_add_emails (emails : list string) (seen : gset string) :
  foldl (λ seen email, {[ normalize_email email ]} ∪ seen) seen emails
    = seen ∪ list_to_set (normalize_email <$> emails).
Proof.
  revert seen. induction emails as [|e rest IH]; intros seen; simpl.
  - apply set_eq. intros x. rewrite elem_of_union, elem_of_empty. tauto.
  - rewrite IH. apply set_eq. intros x.
    rewrite !elem_of_union, elem_of_singleton. tauto.
Qed.

Lemma foldl_preload (rows : list row_dict) (seen : gset string) (x : string) :
  x ∈ foldl (λ seen row,
               match row_get row "emails" with
               | Ret (Some email_list) =>
                   foldl (λ seen email, {[ normalize_email email ]} ∪ seen)
                         seen (Py.split ", " email_list)
               | _ => seen
               end) seen rows
  ↔ x ∈ seen
    ∨ ∃ row email_list email,
        row ∈ rows ∧ row_get row "emails" = Ret (Some email_list)
        ∧ email ∈ Py.split ", " email_list ∧ x = normalize_email email.
Proof.
  revert seen. induction rows as [|row rows IH]; intros seen; simpl.
  - split; [auto|]. intros [H|(row & _ & _ & H & _)]; [exact H | inversion H].
  - rewrite IH. clear IH. split.
    + intros [Hin|(r & l & e & Hr & Hg & He & Hx)].
      * destruct (row_get row "emails") as [[l|]|] eqn:Hg; auto.
        rewrite foldl_add_emails in Hin.
        apply elem_of_union in Hin as [Hin|Hin]; [auto|].
        apply elem_of_list_to_set, list_elem_of_fmap in Hin as (e & -> & He).
        right. exists row, l, e. split; [left|]. auto.
      * right. exists r, l, e. split; [right; exact Hr|]. auto.
    + intros [Hin|(r & l & e & Hr & Hg & He & Hx)].
      * left. destruct (row_get row "emails") as [[l|]|]; auto.
        rewrite foldl_add_emails. apply elem_of_union_l. exact Hin.
      * apply elem_of_cons in Hr as [->|Hr].
        -- left. rewrite Hg, foldl_add_emails. apply elem_of_union_r, elem_of_list_to_set.
           apply list_elem_of_fmap. eauto.
        -- right. eauto 10.
Qed.

(** X18. The preload of an existing output file. The set it gives holds what
    was seen before and the normal forms of the e-mails listed, separated
    by a comma and a space, in the [emails] column, and nothing else; no
    candidate with the normal form of a listed e-mail is kept afterwards.
    A file that cannot be read as a table makes the preload raise. *)
Theorem preload_emails_blocks (f : csv) (seen : gset string) :
  match read_csv f with
  | Raise e => preload_emails (Some f) seen = Raise e
  | Ret df =>
      ∃ seen',
        preload_emails (Some f) seen = Ret seen'
        ∧ (∀ x, x ∈ seen' ↔
                x ∈ seen
                ∨ ("emails" ∈ columns df
                   ∧ ∃ row email_list email,
                       row ∈ iterrows df
                       ∧ row_get row "emails" = Ret (Some email_list)
                       ∧ email ∈ Py.split ", " email_list
                       ∧ x = normalize_email email))
        ∧ ∀ candidates candidate,
            normalize_email candidate ∈ seen' →
            candidate ∉ (process_emails candidates seen').1
  end.
Proof.
  unfold preload_emails. destruct (read_csv f) as [df|e]; [|reflexivity].
  destruct (decide ("emails" ∈ columns df)) as [Hcol|Hcol]; eexists;
    (split; [reflexivity|]); (split; [|intros candidates candidate Hin Hkept;
       exact (proj1 (process_emails_fresh candidates _) candidate Hkept Hin)]).
  - intros x. rewrite foldl_preload. tauto.
  - intros x. tauto.
Qed.

(** ** The e-mail pass: the [emails] cell *)

Lemma split_go_comma_space_app (cur a rest : string) :
  Py.contains "," a = false →
  Py.split_go ", " 0 cur (a +:+ rest) = Py.split_go ", " 0 (cur +:+ a) rest.
Proof.
  revert cur. induction a as [|x a IH]; intros cur Hc.
  - rewrite append_empty_r. reflexivity.
  - rewrite append_cons. simpl in Hc. cbn [Py.split_go Py.startswith].
    destruct (decide (x = ","%char)) as [|Hne]; [discriminate|].
    destruct (decide (","%char = x)) as [|_]; [congruence|].
    rewrite IH by exact Hc. rewrite append_assoc. reflexivity.
Qed.

(** X19. What one run writes in the [emails] cell, the next run reads back:
    joining e-mails that hold no comma with a comma and a space, and
    splitting the cell at that separator, gives the e-mails again. *)
Theorem split_join_emails (emails : list string) :
  emails ≠ [] →
  Forall (λ email, Py.contains "," email = false) emails →
  Py.split ", " (Py.join ", " emails) = emails.
Proof.
  intros Hne Hall. induction Hall as [|e rest He Hrest IH]; [contradiction|].
  unfold Py.split in *. destruct rest as [|e' rest'].
  - cbn [Py.join]. rewrite <- (append_empty_r e) at 1.
    rewrite (split_go_comma_space_app EmptyString e EmptyString He). reflexivity.
  - change (Py.join ", " (e :: e' :: rest'))
      with (e +:+ String "," (String " " (Py.join ", " (e' :: rest')))).
    rewrite (split_go_comma_space_app EmptyString e _ He).
    cbn [Py.split_go Py.startswith String.length Nat.sub].
    destruct (decide (","%char = ","%char)) as [_|H]; [|destruct (H eq_refl)].
    destruct (decide (" "%char = " "%char)) as [_|H]; [|destruct (H eq_refl)].
    rewrite (IH ltac:(discriminate)). reflexivity.
Qed.

Lemma split_join_emails_witness :
  Py.split ", " (Py.join ", " ["Hi@Sol.example"; "sales@sol.example"])
    = ["Hi@Sol.example"; "sales@sol.example"].
Proof.
  apply (split_join_emails ["Hi@Sol.example"; "sales@sol.example"]).
  - discriminate.
  - repeat constructor.
Defined.

Lemma preload_emails_blocks_witness :
  ∃ seen',
    preload_emails (Some prior_output) ∅ = Ret seen'
    ∧ "OLD@old.example " ∉ (process_emails ["OLD@old.example "] seen').1.
Proof.
  pose proof (preload_emails_blocks prior_output ∅) as H.
  assert (Hr : read_csv prior_output
               = Ret (DataFrame ["name"; "website"; "emails"]
                        [[Some "Old Cafe"; Some "http://old.example";
                          Some "old@old.example"]])) by reflexivity.
  rewrite Hr in H. destruct H as (seen' & Hpre & Hiff & Hblock).
  exists seen'. split; [exact Hpre|].
  apply Hblock. apply Hiff. right. split.
  - apply (bool_decide_unpack _). vm_compute. exact I.
  - exists [("name", Some "Old Cafe"); ("website", Some "http://old.example");
            ("emails", Some "old@old.example")], "old@old.example", "old@old.example".
    split; [left|]. split; [reflexivity|]. split; [left | reflexivity].
Defined.

(** ** [main] of the e-mail pass *)

Lemma read_csv_rectangular (f : csv) (df : dataframe) :
  read_csv f = Ret df → rectangular df.
Proof.
  unfold read_csv. destruct (filter _ f) as [|header rows]; [discriminate|].
  intros [= <-]. unfold rectangular. simpl. apply Forall_fmap, Forall_forall.
  intros r _. simpl.
  rewrite length_take, length_app, length_fmap, length_replicate. lia.
Qed.

(** The loop passes over the rows without a website: filtering them out
    beforehand changes nothing. *)
Lemma enrich_rows_filter (fetch : fetcher) (rows : list row_dict) (results : list row_dict)
    (s : scraper) :
  Forall (λ row, ∃ v, row_get row "website" = Ret v) rows →
  enrich_rows fetch (filter (λ r, has_website r = true) rows) results s
    = enrich_rows fetch rows results s.
Proof.
  intros Hrows. revert results s.
  induction Hrows as [|row rows [v Hv] _ IH]; intros results s; [reflexivity|].
  destruct v as [website|].
  - rewrite filter_cons_True by (unfold has_website; rewrite Hv; reflexivity).
    cbn [enrich_rows]. rewrite Hv.
    destruct (scrape_email_from_website fetch website (seen_emails s)) as [emails seen].
    apply IH.
  - rewrite filter_cons_False by (unfold has_website; rewrite Hv; discriminate).
    cbn [enrich_rows]. rewrite Hv. apply IH.
Qed.

(** X20. [main] on a readable input file with a [website] column ends with the
    output file that [process_websites] leaves when it is given the whole
    table, started from an empty set of seen e-mails: the filter that
    [main] applies first has no effect of its own. *)
Theorem main_whole_table (fetch : fetcher) (f : csv) (df : dataframe) (output : option csv) :
  read_csv f = Ret df →
  "website" ∈ columns df →
  main fetch (Some f) output
    = output_file (process_websites fetch df (Scraper ∅ output)).1.
Proof.
  intros Hread Hcol. unfold main. rewrite Hread.
  destruct (with_websites df) as [df'|e] eqn:Hw.
  2:{ unfold with_websites in Hw. destruct (decide _); [discriminate | contradiction]. }
  pose proof (with_websites_rows df df' Hw) as Hrows.
  unfold process_websites. cbn [output_file seen_emails].
  destruct (preload_emails output ∅) as [seen|e]; [|reflexivity].
  rewrite Hrows.
  rewrite (enrich_rows_filter fetch (iterrows df) [] _
             (iterrows_website df Hcol (read_csv_rectangular f df Hread))).
  reflexivity.
Qed.

Lemma main_whole_table_witness :
  main sample_fetch
       (Some [["name"; "website"]; ["Bar Sol"; "http://sol.example"]; ["No Site"; "N/A"]])
       None
    = Some [["name"; "website"; "emails"];
            ["Bar Sol"; "http://sol.example"; "Hi@Sol.example"]].
Proof.
  rewrite (main_whole_table sample_fetch _
             (DataFrame ["name"; "website"]
                [[Some "Bar Sol"; Some "http://sol.example"]; [Some "No Site"; None]])
             None).
  - vm_compute. reflexivity.
  - reflexivity.
  - apply (bool_decide_unpack _). vm_compute. exact I.
Defined.

(** X21. The errors that end [main] at once leave the output file as it was: a
    missing input file, an input file with no line that is not blank, an
    input table without a [website] column, and an existing output file
    that cannot be read as a table. *)
Theorem main_startup_errors (fetch : fetcher) (output : option csv) :
  main fetch None output = output
  ∧ (∀ f, Forall (λ r, r = []) f → main fetch (Some f) output = output)
  ∧ (∀ f df, read_csv f = Ret df → "website" ∉ columns df →
             main fetch (Some f) output = output)
  ∧ (∀ f rows e, output = Some rows → read_csv rows = Raise e →
                 main fetch (Some f) output = output).
Proof.
  split; [reflexivity|]. split; [|split].
  - intros f Hblank. unfold main, read_csv.
    assert (Hnil : filter (λ r : list string, r ≠ []) f = []).
    { induction Hblank as [|r f -> _ IH]; [reflexivity|].
      rewrite filter_cons_False by auto. exact IH. }
    rewrite Hnil. reflexivity.
  - intros f df Hread Hcol. unfold main. rewrite Hread. unfold with_websites.
    destruct (decide _); [contradiction | reflexivity].
  - intros f rows e -> Hread. unfold main.
    destruct (read_csv f) as [df|]; [|reflexivity].
    destruct (with_websites df) as [df'|]; [|reflexivity].
    unfold process_websites, preload_emails. cbn [output_file seen_emails].
    rewrite Hread. reflexivity.
Qed.

Lemma main_startup_errors_witness :
  main sample_fetch (Some [[]; []]) (Some prior_output) = Some prior_output
  ∧ main sample_fetch (Some [["name"; "phone"]; ["Bar Sol"; "555-0100"]]) (Some prior_output)
    = Some prior_output.
Proof.
  destruct (main_startup_errors sample_fetch (Some prior_output)) as (_ & Hblank & Hcol & _).
  split.
  - apply Hblank. repeat constructor.
  - apply (Hcol _ (DataFrame ["name"; "phone"] [[Some "Bar Sol"; Some "555-0100"]])).
    + reflexivity.
    + apply (bool_decide_unpack _). vm_compute. exact I.
Defined.

(** ** Each card is handed over once *)







(** ** The normal form of an e-mail *)

Lemma lower_ascii_idem (c : ascii) : Py.lower_ascii (Py.lower_ascii c) = Py.lower_ascii c.
Proof. destruct c as [[] [] [] [] [] [] [] []]; reflexivity. Qed.

Lemma isspace_lower_ascii (c : ascii) : Py.isspace (Py.lower_ascii c) = Py.isspace c.
Proof. destruct c as [[] [] [] [] [] [] [] []]; reflexivity. Qed.

Lemma lower_idem (s : string) : Py.lower (Py.lower s) = Py.lower s.
Proof.
  induction s as [|c s IH]; [reflexivity|].
  cbn [Py.lower]. rewrite lower_ascii_idem, IH. reflexivity.
Qed.

Lemma lower_lstrip (s : string) : Py.lower (Py.lstrip s) = Py.lstrip (Py.lower s).
Proof.
  induction s as [|c s IH]; [reflexivity|].
  cbn [Py.lower Py.lstrip]. rewrite isspace_lower_ascii.
  destruct (Py.isspace c); [exact IH | reflexivity].
Qed.

Lemma lower_rstrip (s : string) : Py.lower (Py.rstrip s) = Py.rstrip (Py.lower s).
Proof.
  induction s as [|c s IH]; [reflexivity|].
  cbn [Py.lower Py.rstrip]. rewrite <- IH, isspace_lower_ascii.
  destruct (Py.rstrip s) as [|x r]; cbn [Py.lower].
  - destruct (Py.isspace c); reflexivity.
  - reflexivity.
Qed.

Lemma rstrip_idem (s : string) : Py.rstrip (Py.rstrip s) = Py.rstrip s.
Proof.
  induction s as [|c s IH]; [reflexivity|].
  cbn [Py.rstrip]. destruct (Py.rstrip s) as [|x r] eqn:Hr.
  - destruct (Py.isspace c) eqn:Hc; [reflexivity|].
    cbn [Py.rstrip]. rewrite Hc. reflexivity.
  - change (Py.rstrip (String c (String x r)))
      with (match Py.rstrip (String x r) with
            | EmptyString => if Py.isspace c then EmptyString else String c EmptyString
            | r' => String c r'
            end).
    rewrite IH. reflexivity.
Qed.

(** Stripping on the right leaves a text that starts with a character
    other than a space starting with that character. *)
Lemma lstrip_rstrip (s : string) :
  Py.lstrip (Py.rstrip (Py.lstrip s)) = Py.rstrip (Py.lstrip s).
Proof.
  induction s as [|c s IH]; [reflexivity|].
  cbn [Py.lstrip]. destruct (Py.isspace c) eqn:Hc; [exact IH|].
  cbn [Py.rstrip]. destruct (Py.rstrip s); rewrite ?Hc; cbn [Py.lstrip]; rewrite ?Hc; reflexivity.
Qed.

Lemma strip_idem (s : string) : Py.strip (Py.strip s) = Py.strip s.
Proof. unfold Py.strip. rewrite lstrip_rstrip, rstrip_idem. reflexivity. Qed.

Lemma lower_strip (s : string) : Py.lower (Py.strip s) = Py.strip (Py.lower s).
Proof. unfold Py.strip. rewrite lower_rstrip, lower_lstrip. reflexivity. Qed.

Lemma normalize_email_trimmed_lower (email : string) :
  normalize_email email = trimmed_lower email.
Proof. unfold normalize_email, trimmed_lower. symmetry. apply lower_strip. Qed.

(** C7. Duplicates are told by the text trimmed and lower-cased
    ([Py.strip], [Py.lower]). Whatever the e-mails seen before, a
    candidate is kept exactly when that form of it is neither among them
    nor the form of an earlier candidate of the sequence, and it is kept
    as it is spelled; the kept e-mails differ pairwise in that form, and
    every candidate's form is in the set afterwards. Of two candidates
    equal after trimming and lower-casing only the first is kept. In
    particular [A@Foo.COM] followed by [a@foo.com] yields only
    [A@Foo.COM], also with blanks around either of them. *)
Theorem process_emails_first_seen (pre post : list string) (email : string)
    (seen : gset string) :
  (process_emails (pre ++ email :: post)%list seen).1 =
    ((process_emails pre seen).1
     ++ (if decide (trimmed_lower email ∈ seen
                    ∨ trimmed_lower email ∈ trimmed_lower <$> pre)
         then [] else [email])
     ++ (process_emails post
           (seen ∪ list_to_set (trimmed_lower <$> (pre ++ [email])%list))).1)%list
  ∧ NoDup (trimmed_lower <$> (process_emails (pre ++ email :: post)%list seen).1)
  ∧ (process_emails (pre ++ email :: post)%list seen).2 =
      seen ∪ list_to_set (trimmed_lower <$> (pre ++ email :: post)%list)
  ∧ (∀ first second : string,
       trimmed_lower first = trimmed_lower second →
       (process_emails [first; second] seen).1 = (process_emails [first] seen).1)
  ∧ process_emails ["A@Foo.COM"; "a@foo.com"] ∅ = (["A@Foo.COM"], {[ "a@foo.com" ]})
  ∧ process_emails ["  A@Foo.COM"; "a@foo.com "; "A@FOO.COM"] ∅
    = (["  A@Foo.COM"], {[ "a@foo.com" ]}).
Proof.
  assert (Hmap : ∀ l : list string, normalize_email <$> l = trimmed_lower <$> l).
  { intros l. apply list_fmap_ext. intros i e _. apply normalize_email_trimmed_lower. }
  destruct (process_emails_decompose pre post email seen) as (Hkept & Hnodup & Hseen & _).
  rewrite !Hmap, normalize_email_trimmed_lower in Hkept.
  rewrite Hmap in Hnodup. rewrite Hmap in Hseen.
  split; [exact Hkept|]. split; [exact Hnodup|]. split; [exact Hseen|].
  split; [|split; vm_compute; reflexivity].
  intros first second Heq.
  change [first; second] with ([first] ++ [second])%list.
  rewrite process_emails_app. cbn [fst].
  rewrite (process_emails_all_seen [second]); [apply app_nil_r|].
  intros e He. apply list_elem_of_singleton in He as ->.
  rewrite process_emails_seen. apply elem_of_union_r, elem_of_list_to_set.
  apply list_elem_of_fmap. exists first. split; [|left].
  rewrite !normalize_email_trimmed_lower. symmetry. exact Heq.
Qed.

Lemma process_emails_first_seen_witness :
  (process_emails ["A@Foo.COM"; " a@foo.com "] ∅).1 = ["A@Foo.COM"].
Proof.
  destruct (process_emails_first_seen [] [] "A@Foo.COM" ∅) as (_ & _ & _ & Hpair & _).
  rewrite (Hpair "A@Foo.COM" " a@foo.com "); reflexivity.
Defined.

(** X16. The normal form is a fixed point of the normalisation, and it does
    not depend on the case of the letters or on blanks around the text:
    lower-casing or stripping an e-mail first gives the same normal form,
    so such spellings are duplicates of one another. *)
Theorem normalize_email_stable (email : string) :
  normalize_email (normalize_email email) = normalize_email email
  ∧ normalize_email (Py.lower email) = normalize_email email
  ∧ normalize_email (Py.strip email) = normalize_email email
  ∧ ∀ seen, (process_emails [email; Py.lower email; Py.strip email] seen).1
            = (process_emails [email] seen).1.
Proof.
  assert (H1 : normalize_email (normalize_email email) = normalize_email email).
  { unfold normalize_email. rewrite lower_strip, lower_idem, strip_idem. reflexivity. }
  assert (H2 : normalize_email (Py.lower email) = normalize_email email).
  { unfold normalize_email. rewrite lower_idem. reflexivity. }
  assert (H3 : normalize_email (Py.strip email) = normalize_email email).
  { unfold normalize_email. rewrite lower_strip, strip_idem. reflexivity. }
  split; [exact H1|]. split; [exact H2|]. split; [exact H3|].
  intros seen.
  change [email; Py.lower email; Py.strip email]
    with ([email] ++ [Py.lower email; Py.strip email])%list.
  rewrite process_emails_app. cbn [fst].
  rewrite (process_emails_all_seen [Py.lower email; Py.strip email]).
  - apply app_nil_r.
  - intros e He. rewrite process_emails_seen.
    apply elem_of_union_r, elem_of_list_to_set, list_elem_of_fmap.
    exists email. split; [|left].
    apply elem_of_cons in He as [->|He]; [exact H2|].
    apply elem_of_cons in He as [->|He]; [exact H3 | inversion He].
Qed.

(** ** E-mails across websites *)

Lemma scrape_email_seen (fetch : fetcher) (website : string) (seen : gset string) :
  let r := scrape_email_from_website fetch website seen in
  seen ⊆ r.2
  ∧ ∀ email, email ∈ r.1 → normalize_email email ∈ r.2 ∧ normalize_email email ∉ seen.
Proof.
  unfold scrape_email_from_website.
  destruct (fetch website) as [found|]; cbn zeta.
  2:{ split; [reflexivity|]. intros email H. inversion H. }
  destruct (valid_emails found) as [valid|].
  2:{ split; [reflexivity|]. intros email H. inversion H. }
  split.
  - rewrite process_emails_seen. apply union_subseteq_l.
  - intros email Hin. split.
    + rewrite process_emails_seen. apply elem_of_union_r, elem_of_list_to_set.
      apply list_elem_of_fmap. exists email. split; [reflexivity|].
      eapply elem_of_sublist; [exact Hin | apply process_emails_sublist].
    + exact (proj1 (process_emails_fresh valid seen) email Hin).
Qed.

(** X17. The set of seen e-mails lives as long as the run: an e-mail kept for
    one website is never kept again for a website scraped later in the
    same run, in any spelling with the same normal form, also when the
    two websites are the same. *)
Theorem scrape_later_disjoint (fetch : fetcher) (first later : string) (seen : gset string) :
  let r1 := scrape_email_from_website fetch first seen in
  ∀ between : gset string, r1.2 ⊆ between →
    let r2 := scrape_email_from_website fetch later between in
    ∀ e1 e2, e1 ∈ r1.1 → e2 ∈ r2.1 → normalize_email e1 ≠ normalize_email e2.
Proof.
  intros r1 between Hsub r2 e1 e2 H1 H2 Heq.
  destruct (scrape_email_seen fetch first seen) as [_ Hk1].
  destruct (scrape_email_seen fetch later between) as [_ Hk2].
  destruct (Hk1 e1 H1) as [Hin1 _]. destruct (Hk2 e2 H2) as [_ Hnin2].
  apply Hnin2. rewrite <- Heq. apply Hsub. exact Hin1.
Qed.

Lemma scrape_later_disjoint_witness :
  let r1 := scrape_email_from_website sample_fetch "http://sol.example" ∅ in
  let r2 := scrape_email_from_website sample_fetch "http://old.example" r1.2 in
  r1.1 = ["Hi@Sol.example"] ∧ r2.1 = ["old@old.example"]
  ∧ normalize_email "Hi@Sol.example" ≠ normalize_email "old@old.example".
Proof.
  intros r1 r2. split; [vm_compute; reflexivity|]. split; [vm_compute; reflexivity|].
  subst r1 r2.
  apply (scrape_later_disjoint sample_fetch "http://sol.example" "http://old.example" ∅
           (scrape_email_from_website sample_fetch "http://sol.example" ∅).2).
  - intros x Hx. exact Hx.
  - vm_compute. left.
  - vm_compute. left.
Defined.

(** ** [save_place] on a record that is not well formed *)

(** X6. A record without a name raises [KeyError] and changes nothing. A
    record with a new key and a field outside the headers raises
    [ValueError] from [writerow]: no row is written, the key is not added
    and the count stays; the file has been opened for appending by then,
    which creates it when it was missing. *)
Theorem save_place_errors (place_data : gmap string value) (s : state) :
  (place_data !! "name" = None → save_place place_data s = (s, Raise KeyError))
  ∧ (∀ name address,
       place_data !! "name" = Some name → place_data !! "address" = Some address →
       (name, address) ∉ seen_places s →
       ¬ (dom place_data ⊆ header_set) →
       save_place place_data s
         = (set_csv_file (Some (default [] (csv_file s))) s, Raise ValueError)
       ∧ ((name, address) ∉ seen_places (fst (save_place place_data s)))
       ∧ total_extracted (fst (save_place place_data s)) = total_extracted s).
Proof.
  split.
  - intros Hn. unfold save_place, bind, call, getitem. rewrite Hn. reflexivity.
  - intros name address Hn Ha Hnin Hdom.
    assert (Heq : save_place place_data s
                  = (set_csv_file (Some (default [] (csv_file s))) s, Raise ValueError)).
    { unfold save_place, bind, call, gets, getitem, modify. rewrite Hn, Ha. simpl.
      destruct (decide _) as [Hin|_]; [contradiction|].
      unfold dict_to_list. destruct (decide _) as [Hsub|_]; [contradiction | reflexivity]. }
    rewrite Heq. auto.
Qed.

Lemma save_place_errors_witness :
  let extra := <["opening_hours" := Some "9-17"]> sample_place in
  save_place extra (set_csv_file None fresh)
    = (set_csv_file (Some []) fresh, Raise ValueError)
  ∧ save_place (delete "name" sample_place) fresh = (fresh, Raise KeyError).
Proof.
  intros extra.
  destruct (save_place_errors extra (set_csv_file None fresh)) as [_ Hvalue].
  destruct (save_place_errors (delete "name" sample_place) fresh) as [Hkey _].
  split.
  - destruct (Hvalue (Some "Cafe Luna") (Some "1 Main St")) as [H _].
    + reflexivity.
    + reflexivity.
    + apply (bool_decide_unpack _). vm_compute. exact I.
    + apply (bool_decide_unpack _). vm_compute. exact I.
    + exact H.
  - apply Hkey. reflexivity.
Defined.
